(** * LouvainMapEquation: a shallow embedding of
    [include/networkit/community/LouvainMapEquation.hpp]

    The header declares the class [LouvainMapEquation]: its configuration,
    the [Move] record, the statistics members, and three helpers that are
    defined inline ([idiv_ceil], [chunk_bounds] and
    [convert_string_to_parallelization_type]).  These are embedded from
    the text of the header.

    The other member functions are only declared there; their bodies are
    in the implementation file.  Where a property needs them, they are
    modelled from the written specification of the component, and the
    definition says so. *)

From Stdlib Require Import ZArith QArith Qcanon PrimFloat Ring.
From Stdlib Require Import List String Bool Lia Arith Permutation.
Import ListNotations.

(** [length] is the length of a list throughout. *)
Import Corelib.Init.Datatypes.

Open Scope Z_scope.

(* ================================================================== *)
(** ** Machine integers                                                *)
(* ================================================================== *)

(** [count] is an unsigned machine integer type declared outside the
    header.  Its width is kept as a parameter [bits]; unsigned arithmetic
    is arithmetic modulo [2 ^ bits]. *)
Abbreviation count := Z (only parsing).

Definition modulus (bits : Z) : Z := 2 ^ bits.

Definition wrap (bits : Z) (x : Z) : Z := x mod modulus bits.

Definition is_count (bits : Z) (x : count) : Prop := 0 <= x < modulus bits.

(** [count idiv_ceil(count a, count b) const { return (a + b - 1) / b; }]

    Division by [b = 0] is undefined in the source; every statement about
    [idiv_ceil] below assumes [1 <= b]. *)
Definition idiv_ceil (bits : Z) (a b : count) : count :=
  wrap bits (wrap bits (a + b) - 1) / b.

(** [return std::make_pair(i * chunk_size, std::min(n, (i + 1) * chunk_size));] *)
Definition chunk_bounds (bits : Z) (i n chunk_size : count) : count * count :=
  (wrap bits (i * chunk_size),
   Z.min n (wrap bits (wrap bits (i + 1) * chunk_size))).

(** Position [x] lies in the half-open chunk number [i]. *)
Definition in_chunk (bits : Z) (i n chunk_size x : Z) : Prop :=
  fst (chunk_bounds bits i n chunk_size) <= x
  < snd (chunk_bounds bits i n chunk_size).

(** The chunks numbered [0 .. idiv_ceil n b - 1] partition [[0, n)]:
    chunk [i] is the interval [[i*b, min n ((i+1)*b))]; each chunk ends
    where the next one begins; the chunks stay inside [[0, n)]; every
    position of [[0, n)] lies in one of them; no position lies in two. *)
Definition chunks_partition (bits : Z) (n b : count) : Prop :=
  (forall i, 0 <= i < idiv_ceil bits n b ->
     chunk_bounds bits i n b = (i * b, Z.min n ((i + 1) * b)))
  /\ (forall i, 0 <= i -> i + 1 < idiv_ceil bits n b ->
        snd (chunk_bounds bits i n b) = fst (chunk_bounds bits (i + 1) n b))
  /\ (forall i x, 0 <= i < idiv_ceil bits n b ->
        in_chunk bits i n b x -> 0 <= x < n)
  /\ (forall x, 0 <= x < n ->
        exists i, 0 <= i < idiv_ceil bits n b /\ in_chunk bits i n b x)
  /\ (forall i j x, 0 <= i < idiv_ceil bits n b ->
        0 <= j < idiv_ceil bits n b ->
        in_chunk bits i n b x -> in_chunk bits j n b x -> i = j).

(* ================================================================== *)
(** ** Configuration and construction                                  *)
(* ================================================================== *)

(** [enum class ParallelizationType : uint8_t { None, RelaxMap, Synchronous }] *)
Module ParallelizationType.
Inductive t : Set := None | RelaxMap | Synchronous.
End ParallelizationType.

(** A call either returns a value or is left through
    [throw std::runtime_error(what)]. *)
Inductive outcome (A : Type) : Type :=
| Returned (a : A)
| Thrown (what : String.string).
Arguments Returned {A} a.
Arguments Thrown {A} what.

Definition bind {A B : Type} (x : outcome A) (k : A -> outcome B) : outcome B :=
  match x with
  | Returned a => k a
  | Thrown what => Thrown what
  end.

Definition convert_string_to_parallelization_type (para_strat : String.string)
  : outcome ParallelizationType.t :=
  if String.eqb para_strat "none"%string then
    Returned ParallelizationType.None
  else if String.eqb para_strat "relaxmap"%string then
    Returned ParallelizationType.RelaxMap
  else if String.eqb para_strat "synchronous"%string then
    Returned ParallelizationType.Synchronous
  else
    Thrown (String.append
              "Invalid parallelization type for map equation Louvain: "
              para_strat).

(** The configuration members of the class: [parallelizationType],
    [hierarchical] and [maxIterations]. *)
Record Config : Type := mkConfig {
  hierarchical : bool;
  maxIterations : count;
  parallelizationType : ParallelizationType.t
}.

(** Default arguments of the public constructor. *)
Definition default_hierarchical : bool := false.
Definition default_maxIterations : count := 32.
Definition default_parallelizationStrategy : String.string := "relaxmap"%string.

Definition or_default {A : Type} (dflt : A) (arg : option A) : A :=
  match arg with
  | Some a => a
  | Datatypes.None => dflt
  end.

(** The private constructor is handed the configuration with the strategy
    already converted.  The header only declares it; it is represented by
    the configuration it is called with. *)
Definition LouvainMapEquation_private
    (hier : bool) (maxIter : count) (ptype : ParallelizationType.t) : Config :=
  mkConfig hier maxIter ptype.

(** The public constructor.  An omitted argument is [None] and takes the
    declared default.  The graph argument has no default and does not
    take part in the configuration.  The delegating call evaluates
    [convert_string_to_parallelization_type] as one of its arguments, so
    an exception leaves before the private constructor is entered. *)
Definition LouvainMapEquation
    (hier : option bool) (maxIter : option count)
    (parallelizationStrategy : option String.string) : outcome Config :=
  bind (convert_string_to_parallelization_type
          (or_default default_parallelizationStrategy parallelizationStrategy))
       (fun ptype =>
          Returned (LouvainMapEquation_private
                      (or_default default_hierarchical hier)
                      (or_default default_maxIterations maxIter)
                      ptype)).

(* ================================================================== *)
(** ** Arithmetic on weights                                           *)
(* ================================================================== *)

Open Scope nat_scope.

(** Edge weights, cuts and volumes are [double] in the source.  The
    operations the class applies to them are gathered in a record, so
    that the engine is written once.  [binary64] below is the arithmetic
    of the source: IEEE 754 double precision with its rounding.
    [rational] is arithmetic without rounding. *)
Record Arithmetic : Type := mkArithmetic {
  num : Type;
  zero : num;
  one : num;
  add : num -> num -> num;
  mul : num -> num -> num;
  sub : num -> num -> num;
  opp : num -> num;
  compare : num -> num -> option comparison
}.
Arguments zero {_}.
Arguments one {_}.
Arguments add {_} _ _.
Arguments mul {_} _ _.
Arguments sub {_} _ _.
Arguments opp {_} _.
Arguments compare {_} _ _.

Declare Scope num_scope.
Delimit Scope num_scope with num.
Infix "+" := add : num_scope.
Infix "-" := sub : num_scope.
Infix "*" := mul : num_scope.
Notation "- x" := (opp x) : num_scope.

(** [double]: the kernel's binary64 numbers.  A comparison with a NaN
    has no outcome. *)
Definition binary64 : Arithmetic :=
  mkArithmetic PrimFloat.float PrimFloat.zero PrimFloat.one
    PrimFloat.add PrimFloat.mul PrimFloat.sub PrimFloat.opp
    (fun x y => match PrimFloat.compare x y with
                | FEq => Some Eq
                | FLt => Some Lt
                | FGt => Some Gt
                | FNotComparable => Datatypes.None
                end).

(** Rational numbers in canonical form. *)
Definition rational : Arithmetic :=
  mkArithmetic Qc (Q2Qc 0) (Q2Qc 1) Qcplus Qcmult Qcminus Qcopp
    (fun x y => Some (x ?= y)%Qc).

(** An arithmetic is exact when its operations obey the laws of a
    commutative ring: no operation rounds. *)
Definition exact (A : Arithmetic) : Prop :=
  ring_theory (@zero A) one add mul sub opp eq.

(** The weaker property that sums do not depend on the order of their
    terms. *)
Definition orderFree (A : Arithmetic) : Prop :=
  (forall x y : num A, (x + y)%num = (y + x)%num)
  /\ (forall x y z : num A, (x + (y + z))%num = ((x + y) + z)%num).

Definition ltb {A : Arithmetic} (x y : num A) : bool :=
  match compare x y with Some Lt => true | _ => false end.

(* ================================================================== *)
(** ** Graph, partition, moves and statistics                          *)
(* ================================================================== *)

(** Node ids and cluster ids are dense unsigned integers; cluster ids
    reuse the node id space. *)
Abbreviation node := nat (only parsing).
Abbreviation index := nat (only parsing).

(** [l[i] = v].  An index past the end is undefined in the source and
    leaves the vector unchanged here. *)
Fixpoint assign {T : Type} (i : nat) (v : T) (l : list T) : list T :=
  match l, i with
  | [], _ => []
  | _ :: t, O => v :: t
  | x :: t, S j => x :: assign j v t
  end.

(** Modelled from the spec: the Partition collaborator, a mapping from
    node id to cluster id with one entry per node.  Reading past the end
    is undefined in the source and yields [0] here. *)
Definition subsetOf (partition : list index) (v : node) : index :=
  nth v partition O.

(** Modelled from the spec: every node its own cluster. *)
Definition allToSingletons (n : nat) : list index := seq 0 n.

(** Modelled from the spec: the number of distinct cluster ids in use. *)
Definition numberOfSubsets (partition : list index) : nat :=
  length (nodup Nat.eq_dec partition).

Section Statistics.

Context {A : Arithmetic}.

#[local] Abbreviation weight := (num A) (only parsing).

Definition two : weight := (one + one)%num.

(** The sum of a vector, accumulated from zero in one pass from its first
    entry to its last. *)
Definition sum (l : list weight) : weight := fold_left add l zero.

(** [l[i] += d], with the convention of [assign] past the end. *)
Fixpoint adjust (i : nat) (d : weight) (l : list weight) : list weight :=
  match l, i with
  | [], _ => []
  | x :: t, O => (x + d)%num :: t
  | x :: t, S j => x :: adjust j d t
  end.

(** Modelled from the spec: the Graph collaborator, whose class is not
    declared in the header.  It answers the read-only queries the
    specification lists: node count, per-node weighted degree, per-node
    self-loop weight, and per-node neighbour iteration with edge
    weights. *)
Record Graph : Type := mkGraph {
  numberOfNodes : nat;
  weightedDegree : node -> weight;
  selfLoopWeight : node -> weight;
  edgesOf : node -> list (node * weight)
}.

(** Modelled from the spec: the degree of a node is the number of edges
    its neighbour iteration yields. *)
Definition degree (G : Graph) (u : node) : nat := length (edgesOf G u).

(** Modelled from the spec: edges are undirected and join nodes of the
    graph. *)
Definition wellFormed (G : Graph) : Prop :=
  forall u v w, In (v, w) (edgesOf G u) ->
    v < numberOfNodes G /\ In (u, w) (edgesOf G v).

(** [struct Move], field for field.  The [double] fields have type
    [num A]; the source is the instance [A = binary64]. *)
Record Move : Type := mkMove {
  movedNode : node;
  volume : weight;
  originCluster : index;
  targetCluster : index;
  cutUpdateToOriginCluster : weight;
  cutUpdateToTargetCluster : weight
}.

(** The mutable members of the class: the partition [result] inherited
    from the base class, [nextPartition], [clusterCut], [clusterVolume],
    [totalCut] and [totalVolume].  The [double] members have type
    [num A]; the source is the instance [A = binary64]. *)
Record State : Type := mkState {
  result : list index;
  nextPartition : list index;
  clusterCut : list weight;
  clusterVolume : list weight;
  totalCut : weight;
  totalVolume : weight
}.

(** Modelled from the spec: the volume of a node is its weighted degree
    plus twice its self-loop weight. *)
Definition nodeVolume (G : Graph) (u : node) : weight :=
  (weightedDegree G u + two * selfLoopWeight G u)%num.

(** Modelled from the spec: [calculateInitialClusterCutAndVolume], which
    the header only declares.  Section 4.1: with every node a singleton
    cluster, ClusterCut[u] is the weighted degree of u, ClusterVolume[u]
    is the weighted degree plus twice the self-loop weight, and TotalCut
    and TotalVolume are the graph-wide sums, computed from the graph in
    one linear pass. *)
Definition calculateInitialClusterCutAndVolume (G : Graph) (st : State) : State :=
  let nodes := seq 0 (numberOfNodes G) in
  let cut := map (weightedDegree G) nodes in
  let vol := map (nodeVolume G) nodes in
  mkState (result st) (nextPartition st) cut vol (sum cut) (sum vol).

(** Modelled from the spec: the state a run starts from (section 4.1,
    [initialize]): singleton partitions and the initial statistics. *)
Definition initialize (G : Graph) : State :=
  calculateInitialClusterCutAndVolume G
    (mkState (allToSingletons (numberOfNodes G))
             (allToSingletons (numberOfNodes G)) [] [] zero zero).

(** Modelled from the spec: the update of the statistics by one move
    (section 4.1, [applyMove]; in the class it is part of [performMove],
    which the header only declares).  ClusterCut of the origin and of the
    target cluster change by the move's deltas, and the node's volume is
    transferred from ClusterVolume[origin] to ClusterVolume[target].
    TotalCut, the cached graph-wide sum of the cuts, follows the two
    deltas; TotalVolume is not written. *)
Definition applyMove (m : Move) (st : State) : State :=
  mkState (result st) (nextPartition st)
    (adjust (targetCluster m) (cutUpdateToTargetCluster m)
       (adjust (originCluster m) (cutUpdateToOriginCluster m) (clusterCut st)))
    (adjust (targetCluster m) (volume m)
       (adjust (originCluster m) (- volume m)%num (clusterVolume st)))
    (totalCut st + (cutUpdateToOriginCluster m + cutUpdateToTargetCluster m))%num
    (totalVolume st).

(** Modelled from the spec: the record of a decided move (section 3).  It
    carries the node's volume, [degree + 2 * loopWeight], and the deltas
    its application brings to the two cuts: the origin loses the edges
    from the node to the outside and gains those to its former cluster
    mates; the target gains the edges from the node to the outside of the
    target and loses those into it. *)
Definition makeMove (u : node) (deg loopWeight : weight)
    (currentCluster targetCl : index) (weightToTarget weightToCurrent : weight)
  : Move :=
  mkMove u (deg + two * loopWeight)%num currentCluster targetCl
         (two * weightToCurrent - deg)%num (deg - two * weightToTarget)%num.

(** Modelled from the spec: [performMove], which the header only
    declares, with the parameters of its declaration.  It commits a move
    at once: the move is applied to the statistics and the node's new
    cluster is recorded in the partition. *)
Definition performMove (u : node) (deg loopWeight : weight)
    (currentCluster targetCl : index) (weightToTarget weightToCurrent : weight)
    (st : State) : bool * State :=
  let st' := applyMove (makeMove u deg loopWeight currentCluster targetCl
                                 weightToTarget weightToCurrent) st in
  (true, mkState (assign u targetCl (result st')) (nextPartition st')
                 (clusterCut st') (clusterVolume st')
                 (totalCut st') (totalVolume st')).

(** Modelled from the spec: the net change one move brings to the cut and
    to the volume of cluster [c] (section 4.5, the deltas grouped by
    cluster id). *)
Definition cutDelta (c : index) (m : Move) : weight :=
  ((if Nat.eqb (originCluster m) c then cutUpdateToOriginCluster m else zero)
   + (if Nat.eqb (targetCluster m) c then cutUpdateToTargetCluster m else zero))%num.

Definition volumeDelta (c : index) (m : Move) : weight :=
  ((if Nat.eqb (targetCluster m) c then volume m else zero)
   - (if Nat.eqb (originCluster m) c then volume m else zero))%num.

(** Modelled from the spec: the sum, over a batch, of the deltas of
    cluster [c]. *)
Definition summedDelta (delta : index -> Move -> weight)
    (moves : list Move) (c : index) : weight :=
  sum (map (delta c) moves).

(** [l[c] += d c] for every cluster id [c], counting from [from]. *)
Fixpoint applyDeltas (d : index -> weight) (from : index) (l : list weight)
  : list weight :=
  match l with
  | [] => []
  | x :: t => (x + d from)%num :: applyDeltas d (S from) t
  end.

(** Modelled from the spec: the Move Aggregator,
    [aggregateAndApplyCutAndVolumeUpdates], which the header only
    declares.  Section 4.5: group the moves of the batch by cluster id,
    sum all cut and volume deltas per cluster, then apply the summed
    deltas to the statistics in a single pass. *)
Definition aggregateAndApplyCutAndVolumeUpdates (moves : list Move) (st : State)
  : State :=
  mkState (result st) (nextPartition st)
    (applyDeltas (summedDelta cutDelta moves) 0 (clusterCut st))
    (applyDeltas (summedDelta volumeDelta moves) 0 (clusterVolume st))
    (totalCut st
     + sum (map (fun m => cutUpdateToOriginCluster m + cutUpdateToTargetCluster m)
                moves))%num
    (totalVolume st).

(** Modelled from the spec: how a strategy commits the moves of a batch
    (section 4.4).  The sequential and the lock-based strategy apply each
    move on its own, the lock making the applied update atomic; the
    stale-synchronous strategy hands the batch of a pass to the
    aggregator. *)
Definition commit (ptype : ParallelizationType.t) (moves : list Move) (st : State)
  : State :=
  match ptype with
  | ParallelizationType.Synchronous =>
      aggregateAndApplyCutAndVolumeUpdates moves st
  | _ => fold_left (fun s m => applyMove m s) moves st
  end.

Definition commitAll (ptype : ParallelizationType.t) (batches : list (list Move))
    (st : State) : State :=
  fold_left (fun s moves => commit ptype moves s) batches st.

(** A move between clusters of a graph with [n] nodes. *)
Definition inRange (n : nat) (m : Move) : Prop :=
  originCluster m < n /\ targetCluster m < n.

End Statistics.

Arguments Graph : clear implicits.
Arguments Move : clear implicits.
Arguments State : clear implicits.

(* ================================================================== *)
(** ** The local-moving engine                                         *)
(* ================================================================== *)

(** Modelled from the spec: what the environment decides for one pass
    (sections 4.4 and 5).  [visitOrder] is the order in which the nodes
    are taken, the outcome of the per-pass shuffle; for the lock-based
    strategy it is the order in which the workers' updates take effect.
    [staleness] tells, for the lock-based strategy, how many committed
    steps of the pass each decision has not seen yet. *)
Record PassSchedule : Type := mkPassSchedule {
  visitOrder : list node;
  staleness : list nat
}.

Section LocalMoving.

Context {A : Arithmetic}.

#[local] Abbreviation weight := (num A) (only parsing).

(** Modelled from the spec: the outcome of evaluating a node (section
    4.4): the current and the target cluster with the weights from the
    node into each. *)
Record Decision : Type := mkDecision {
  currentOf : index;
  targetOf : index;
  weightToTargetOf : weight;
  weightToCurrentOf : weight
}.

(** The header only declares [fitnessChange], and the specification gives
    no formula for it: the engine is defined for any evaluator. *)
Variable fitnessChange :
  State A -> node -> weight -> weight -> index -> index ->
  weight -> weight -> weight -> weight.

(** The small numeric tolerance by which a move has to beat the baseline
    (section 4.3). *)
Variable tolerance : weight.

(** The coarse graph built from a clustering, and the projection of a
    coarse partition onto the nodes of the finer level (section 4.6). *)
Variable coarsen : Graph A -> list index -> Graph A.
Variable prolong : list index -> list index -> list index.

(** *** Neighbor-weight accumulator *)

(** Modelled from the spec: [acc[c] += w] on the sparse map of section
    4.2, a cluster touched for the first time being appended. *)
Fixpoint addWeight (c : index) (w : weight) (acc : list (index * weight))
  : list (index * weight) :=
  match acc with
  | [] => [(c, w)]
  | (c', w') :: t =>
      if Nat.eqb c' c then (c', (w' + w)%num) :: t
      else (c', w') :: addWeight c w t
  end.

(** Modelled from the spec: the Neighbor-Weight Accumulator.  Section
    4.2: iterate the neighbours of [u] once and accumulate the edge weight
    per neighbouring cluster, the cluster of [u] itself included;
    self-loops are left out. *)
Definition accumulate (G : Graph A) (partition : list index) (u : node)
  : list (index * weight) :=
  fold_left
    (fun acc e =>
       if Nat.eqb (fst e) u then acc
       else addWeight (subsetOf partition (fst e)) (snd e) acc)
    (edgesOf G u) [].

(** Modelled from the spec: the accumulated weight into cluster [c],
    zero for a cluster that was not touched. *)
Definition weightTo (acc : list (index * weight)) (c : index) : weight :=
  match find (fun e => Nat.eqb (fst e) c) acc with
  | Some e => snd e
  | Datatypes.None => zero
  end.

(** *** Choosing a target *)

(** Modelled from the spec: the order on candidates (section 4.4).  A
    lower fitness value is better; ties are broken by lowest cluster
    id. *)
Definition better (f1 : weight) (c1 : index) (f2 : weight) (c2 : index) : bool :=
  match compare f1 f2 with
  | Some Lt => true
  | Some Eq => Nat.ltb c1 c2
  | _ => false
  end.

(** Modelled from the spec: the best candidate among the touched clusters
    other than [cur] (section 4.4): its id, the weight from the node into
    it, and its fitness. *)
Definition bestTarget (fit : index -> weight -> weight) (cur : index)
    (acc : list (index * weight)) : option (index * weight * weight) :=
  fold_left
    (fun best e =>
       if Nat.eqb (fst e) cur then best
       else
         let f := fit (fst e) (snd e) in
         match best with
         | Datatypes.None => Some (fst e, snd e, f)
         | Some (bc, bw, bf) =>
             if better f (fst e) bf bc then Some (fst e, snd e, f) else best
         end)
    acc Datatypes.None.

(** Modelled from the spec: the evaluation of node [u] against the
    partition and the statistics of [view].  Sections 4.3 and 4.4:
    accumulate the neighbour-cluster weights, evaluate staying and moving
    to every touched neighbouring cluster, select the best target, and
    accept it only when it beats the no-move baseline by more than the
    tolerance. *)
Definition decide (G : Graph A) (view : State A) (u : node) : option Decision :=
  let cur := subsetOf (result view) u in
  let acc := accumulate G (result view) u in
  let deg := weightedDegree G u in
  let loopWeight := selfLoopWeight G u in
  let weightToCurrent := weightTo acc cur in
  let fit := fun c w =>
    fitnessChange view u deg loopWeight cur c w weightToCurrent (totalCut view) in
  let baseline := fit cur weightToCurrent in
  match bestTarget fit cur acc with
  | Some (c, w, f) =>
      if ltb (f + tolerance)%num baseline
      then Some (mkDecision cur c w weightToCurrent)
      else Datatypes.None
  | Datatypes.None => Datatypes.None
  end.

(** Modelled from the spec: the [Move] record of a decision. *)
Definition moveOf (G : Graph A) (u : node) (d : Decision) : Move A :=
  makeMove u (weightedDegree G u) (selfLoopWeight G u)
           (currentOf d) (targetOf d) (weightToTargetOf d) (weightToCurrentOf d).

(** Modelled from the spec: [tryLocalMove], which the header only
    declares.  The decision is taken on [view].  An accepted move is
    committed at once through [performMove]; when [synchronous], it is
    appended to the worker's move list and recorded in [nextPartition]
    instead, and the statistics and [result] stay as they are.  Returns
    whether the node moves. *)
Definition tryLocalMove (G : Graph A) (u : node) (moves : list (Move A))
    (synchronous : bool) (view st : State A) : bool * list (Move A) * State A :=
  match decide G view u with
  | Datatypes.None => (false, moves, st)
  | Some d =>
      if synchronous then
        (true, moves ++ [moveOf G u d],
         mkState (result st) (assign u (targetOf d) (nextPartition st))
                 (clusterCut st) (clusterVolume st) (totalCut st) (totalVolume st))
      else
        let r := performMove u (weightedDegree G u) (selfLoopWeight G u)
                   (currentOf d) (targetOf d)
                   (weightToTargetOf d) (weightToCurrentOf d) st in
        (fst r, moves, snd r)
  end.

(** Modelled from the spec: the state seen by a reader that lags [lag]
    committed steps behind (section 4.4, stale reads of the lock-based
    strategy).  [past] holds the earlier states of the pass, most recent
    first; a lag beyond the start of the pass sees the start. *)
Definition staleView (lag : nat) (past : list (State A)) (st : State A) : State A :=
  match lag with
  | O => st
  | S k => nth k past (last past st)
  end.

(** Modelled from the spec: [localMoving], which the header only
    declares; one pass of the sequential strategy ([relaxed = false]) or
    of the lock-based strategy ([relaxed = true]).  Section 4.4: the nodes
    are taken in the given order; the sequential strategy decides on the
    current state, the lock-based one on a possibly stale state; an
    accepted move is applied atomically to the current state.  Returns the
    number of nodes moved. *)
Fixpoint localMovingFrom (G : Graph A) (relaxed : bool)
    (nodes : list node) (lags : list nat) (past : list (State A))
    (moved : nat) (st : State A) : nat * State A :=
  match nodes with
  | [] => (moved, st)
  | u :: rest =>
      let lag := if relaxed then hd 0 lags else 0 in
      let r := tryLocalMove G u [] false (staleView lag past st) st in
      localMovingFrom G relaxed rest (tl lags) (st :: past)
        (if fst (fst r) then S moved else moved) (snd r)
  end.

Definition localMoving (G : Graph A) (relaxed : bool) (ps : PassSchedule)
    (st : State A) : nat * State A :=
  localMovingFrom G relaxed (visitOrder ps) (staleness ps) [] 0 st.

(** Modelled from the spec: the evaluation phase of a stale-synchronous
    pass (section 4.4).  Every node is evaluated with
    [synchronous = true]; [result] and the statistics are not written, so
    every decision sees the state of the start of the pass. *)
Fixpoint evaluateAll (G : Graph A) (nodes : list node)
    (moved : nat) (moves : list (Move A)) (st : State A) : nat * list (Move A) * State A :=
  match nodes with
  | [] => (moved, moves, st)
  | u :: rest =>
      let r := tryLocalMove G u moves true st st in
      evaluateAll G rest (if fst (fst r) then S moved else moved)
                  (snd (fst r)) (snd r)
  end.

(** Modelled from the spec: [synchronousLocalMoving], which the header
    only declares.  Section 4.4: after the evaluation phase the
    aggregator applies the collected moves in one step, and the partition
    becomes [nextPartition]. *)
Definition synchronousLocalMoving (G : Graph A) (ps : PassSchedule) (st : State A)
  : nat * State A :=
  let r := evaluateAll G (visitOrder ps) 0 [] st in
  let st' := aggregateAndApplyCutAndVolumeUpdates (snd (fst r)) (snd r) in
  (fst (fst r),
   mkState (nextPartition st') (nextPartition st')
           (clusterCut st') (clusterVolume st') (totalCut st') (totalVolume st')).

(** Modelled from the spec: one pass under the configured strategy. *)
Definition pass (G : Graph A) (ptype : ParallelizationType.t)
    (ps : PassSchedule) (st : State A) : nat * State A :=
  match ptype with
  | ParallelizationType.None => localMoving G false ps st
  | ParallelizationType.RelaxMap => localMoving G true ps st
  | ParallelizationType.Synchronous => synchronousLocalMoving G ps st
  end.

(** *** The pass loop *)

(** Modelled from the spec: the pass loop of [run], which the header only
    declares.  Section 4.4: passes are repeated until one is quiescent or
    the cap is reached.  [remaining] counts the passes still allowed.
    Returns the number of nodes moved by each pass made, and the final
    state. *)
Fixpoint localMovingLoop (onePass : nat -> State A -> nat * State A)
    (remaining iteration : nat) (st : State A) : list nat * State A :=
  match remaining with
  | O => ([], st)
  | S r =>
      let p := onePass iteration st in
      if Nat.eqb (fst p) 0 then ([fst p], snd p)
      else
        let q := localMovingLoop onePass r (S iteration) (snd p) in
        (fst p :: fst q, snd q)
  end.

(** The state after [k] more passes, numbered [iteration],
    [iteration + 1], ..., made one after the other without any stopping
    test, and the number of nodes the next pass moves from there. *)
Fixpoint stateAfter (onePass : nat -> State A -> nat * State A)
    (iteration k : nat) (st : State A) : State A :=
  match k with
  | O => st
  | S j => stateAfter onePass (S iteration) j (snd (onePass iteration st))
  end.

Definition movedIn (onePass : nat -> State A -> nat * State A)
    (iteration k : nat) (st : State A) : nat :=
  fst (onePass (iteration + k) (stateAfter onePass iteration k st)).

(** Modelled from the spec: the flat part of [run] (section 2):
    initialise the statistics, then repeat local-moving passes. *)
Definition localMovingPhase (cfg : Config) (G : Graph A)
    (schedule : nat -> PassSchedule) : list nat * State A :=
  localMovingLoop (fun iteration => pass G (parallelizationType cfg) (schedule iteration))
                  (Z.to_nat (maxIterations cfg)) 0 (initialize G).

(** Modelled from the spec: [run] with [runHierarchical], which the
    header only declares.  Sections 2 and 4.6: a level initialises the
    statistics and runs the pass loop.  With the hierarchical flag the
    level is then coarsened and the pipeline recurses on the coarse graph,
    unless the level produced no reduction in cluster count or used up
    its iteration cap; the coarse result is projected back onto the nodes
    of the level.  A coarser level has fewer nodes, so [numberOfNodes G]
    levels suffice. *)
Fixpoint runLevels (levels : nat) (cfg : Config) (G : Graph A)
    (schedule : nat -> nat -> PassSchedule) (level : nat) : list index :=
  let r := localMovingPhase cfg G (schedule level) in
  let partition := result (snd r) in
  match levels with
  | O => partition
  | S l =>
      if hierarchical cfg
         && Nat.ltb (numberOfSubsets partition) (numberOfNodes G)
         && Nat.ltb (length (fst r)) (Z.to_nat (maxIterations cfg))
      then prolong partition
             (runLevels l cfg (coarsen G partition) schedule (S level))
      else partition
  end.

Definition run (cfg : Config) (G : Graph A)
    (schedule : nat -> nat -> PassSchedule) : list index :=
  runLevels (numberOfNodes G) cfg G schedule 0.

End LocalMoving.

Arguments Decision : clear implicits.

(** The type of [fitnessChange]: it reads the statistics of the object and
    takes the arguments of its declaration,
    [fitnessChange(node, degree, loopWeight, currentCluster, targetCluster,
    weightToTarget, weightToCurrent, totalCutCurrently)]. *)
Abbreviation FitnessEvaluator A :=
  (State A -> nat -> num A -> num A -> nat -> nat ->
   num A -> num A -> num A -> num A)
  (only parsing).

(* ================================================================== *)
(** ** Invariants                                                      *)
(* ================================================================== *)

(** The invariant of the statistics store that concerns volumes. *)
Definition volumesBalanced {A : Arithmetic} (n : nat) (st : State A) : Prop :=
  length (clusterVolume st) = n /\ sum (clusterVolume st) = totalVolume st.

(** Every node of the partition is assigned a cluster id below [n]. *)
Definition partitionInRange (n : nat) (partition : list nat) : Prop :=
  length partition = n /\ forall v, v < n -> subsetOf partition v < n.

(** Node [u] is the only member of cluster [u]. *)
Definition keepsAlone (n : nat) (u : nat) (partition : list nat) : Prop :=
  length partition = n
  /\ forall v, v < n -> (subsetOf partition v = u <-> v = u).

Definition aloneIn {A : Arithmetic} (G : Graph A) (u : nat) (st : State A) : Prop :=
  keepsAlone (numberOfNodes G) u (result st)
  /\ keepsAlone (numberOfNodes G) u (nextPartition st).

(** The statistics and partitions of a state are consistent with a graph
    of [numberOfNodes G] nodes and with the total volume [total]. *)
Definition consistentWith {A : Arithmetic} (G : Graph A) (total : num A)
    (st : State A) : Prop :=
  volumesBalanced (numberOfNodes G) st
  /\ totalVolume st = total
  /\ partitionInRange (numberOfNodes G) (result st)
  /\ partitionInRange (numberOfNodes G) (nextPartition st).

(* ================================================================== *)
(** ** Small instances                                                 *)
(* ================================================================== *)

(** The path 0 - 1 - 2 with unit weights, and an isolated node 3. *)
Definition pathGraph (A : Arithmetic) : Graph A :=
  mkGraph 4
    (fun u => match u with 0 => one | 1 => two | 2 => one | _ => zero end)
    (fun _ => zero)
    (fun u => match u with
              | 0 => [(1, one)]
              | 1 => [(0, one); (2, one)]
              | 2 => [(1, one)]
              | _ => []
              end).

(** A stand-in for the fitness evaluator: the more weight the node has
    into the target cluster, the lower the value. *)
Definition byWeight (A : Arithmetic) : FitnessEvaluator A :=
  fun _ _ _ _ _ _ weightToTarget _ _ => (- weightToTarget)%num.

(** Two environments with the same visiting order; the second lets the
    lock-based strategy read stale statistics. *)
Definition inOrder : nat -> PassSchedule :=
  fun _ => mkPassSchedule [0; 1; 2; 3] [].

Definition lagging : nat -> PassSchedule :=
  fun _ => mkPassSchedule [0; 1; 2; 3] [0; 1; 2; 5].

(** Stand-ins for the coarsener: the coarse graph is the graph itself and
    the projection composes the two partitions. *)
Definition sameGraph {A : Arithmetic} : Graph A -> list nat -> Graph A :=
  fun G _ => G.

Definition compose : list nat -> list nat -> list nat :=
  fun fine coarse => map (fun c => nth c coarse c) fine.

(** On [pathGraph]: node 0 joins cluster 1, then node 2 joins cluster 1. *)
Definition move01 (A : Arithmetic) : Move A :=
  makeMove 0 one zero 0 1 one zero.

Definition move21 (A : Arithmetic) : Move A :=
  makeMove 2 one zero 2 1 one zero.

(** The doubles nearest to 0.1, 0.2 and 0.4. *)
Definition tenth : float := 0x1.999999999999ap-4%float.
Definition fifth : float := 0x1.999999999999ap-3%float.
Definition twoFifths : float := 0x1.999999999999ap-2%float.

(** The path 0 - 1 - 2 with edge weights 0.1 and 0.2, in doubles. *)
Definition decimalPath : Graph binary64 :=
  mkGraph (A := binary64) 3
    (fun u => match u with
              | 0 => tenth
              | 1 => PrimFloat.add tenth fifth
              | 2 => fifth
              | _ => PrimFloat.zero
              end)
    (fun _ => PrimFloat.zero)
    (fun u => match u with
              | 0 => [(1, tenth)]
              | 1 => [(0, tenth); (2, fifth)]
              | 2 => [(1, fifth)]
              | _ => []
              end).

(** On [decimalPath], node 2 joins the cluster of its neighbour 1. *)
Definition joinNeighbour : Move binary64 :=
  makeMove (A := binary64) 2 fifth PrimFloat.zero 2 1 fifth PrimFloat.zero.

(** A star in doubles: the leaves 0, 1 and 2 hang on the centre 3 with
    edge weights 0.1, 0.2 and 0.4. *)
Definition star : Graph binary64 :=
  mkGraph (A := binary64) 4
    (fun u => match u with
              | 0 => tenth
              | 1 => fifth
              | 2 => twoFifths
              | 3 => sum (A := binary64) [tenth; fifth; twoFifths]
              | _ => PrimFloat.zero
              end)
    (fun _ => PrimFloat.zero)
    (fun u => match u with
              | 0 => [(3, tenth)]
              | 1 => [(3, fifth)]
              | 2 => [(3, twoFifths)]
              | 3 => [(0, tenth); (1, fifth); (2, twoFifths)]
              | _ => []
              end).

(** On [star], a leaf joins the cluster of the centre. *)
Definition leafJoins (leaf : nat) (w : float) : Move binary64 :=
  makeMove (A := binary64) leaf w PrimFloat.zero leaf 3 w PrimFloat.zero.

(** The move lists of three workers, one leaf each, and the same lists
    taken in another order. *)
Definition leafLists : list (list (Move binary64)) :=
  [[leafJoins 0 tenth]; [leafJoins 1 fifth]; [leafJoins 2 twoFifths]].

Definition leafLists' : list (list (Move binary64)) :=
  [[leafJoins 0 tenth]; [leafJoins 2 twoFifths]; [leafJoins 1 fifth]].

(* ================================================================== *)
(** ** Chunk lengths                                                   *)
(* ================================================================== *)

Open Scope Z_scope.

(** The number of positions of the half-open interval that
    [chunk_bounds i n chunk_size] returns. *)
Definition chunk_length (bits : Z) (i n chunk_size : Z) : Z :=
  snd (chunk_bounds bits i n chunk_size) - fst (chunk_bounds bits i n chunk_size).

(** The lengths of the chunks numbered [0 .. idiv_ceil n b - 1], in
    order. *)
Definition chunk_lengths (bits : Z) (n b : Z) : list Z :=
  map (fun i => chunk_length bits (Z.of_nat i) n b)
      (seq 0 (Z.to_nat (idiv_ceil bits n b))).

Definition Zsum (l : list Z) : Z := fold_right Z.add 0 l.

Open Scope nat_scope.

(* ================================================================== *)
(** * Properties                                                       *)
(* ================================================================== *)

(** ** Chunking of the node range                                      *)

Open Scope Z_scope.

Section CountArithmetic.
Variable bits : Z.
Hypothesis bits_nonneg : 0 <= bits.

Lemma modulus_pos : 0 < modulus bits.
Proof. unfold modulus. apply Z.pow_pos_nonneg; lia. Qed.

Lemma wrap_small x : 0 <= x < modulus bits -> wrap bits x = x.
Proof. intros H. unfold wrap. apply Z.mod_small. exact H. Qed.

Lemma wrap_sum_pred a b :
  wrap bits (wrap bits (a + b) - 1) = wrap bits (a + b - 1).
Proof. unfold wrap. apply Zminus_mod_idemp_l. Qed.

Lemma idiv_ceil_exact a b :
  0 <= a + b - 1 < modulus bits ->
  idiv_ceil bits a b = (a + b - 1) / b.
Proof.
  intros H. unfold idiv_ceil. rewrite wrap_sum_pred, wrap_small by exact H.
  reflexivity.
Qed.

Lemma idiv_ceil_wrapped a b :
  modulus bits <= a + b - 1 < 2 * modulus bits ->
  idiv_ceil bits a b = (a + b - 1 - modulus bits) / b.
Proof.
  intros H. unfold idiv_ceil. rewrite wrap_sum_pred. unfold wrap.
  replace (a + b - 1) with ((a + b - 1 - modulus bits) + 1 * modulus bits) at 1 by ring.
  rewrite Z.mod_add by (pose proof modulus_pos; lia).
  rewrite Z.mod_small by lia. reflexivity.
Qed.

Lemma chunk_bounds_exact i n b :
  1 <= b -> 0 <= i -> (i + 1) * b < modulus bits ->
  chunk_bounds bits i n b = (i * b, Z.min n ((i + 1) * b)).
Proof.
  intros Hb Hi Hlt. unfold chunk_bounds.
  assert (0 <= i * b) by nia.
  assert (i + 1 < modulus bits) by nia.
  rewrite (wrap_small (i + 1)) by lia.
  rewrite !wrap_small by nia. reflexivity.
Qed.

Lemma ceil_mul_le n b : 1 <= b -> 0 <= n -> ((n + b - 1) / b) * b <= n + b - 1.
Proof.
  intros Hb Hn. pose proof (Z.mul_div_le (n + b - 1) b). lia.
Qed.

Lemma ceil_mul_ge n b : 1 <= b -> 0 <= n -> n <= ((n + b - 1) / b) * b.
Proof.
  intros Hb Hn.
  pose proof (Z.mod_pos_bound (n + b - 1) b).
  pose proof (Z.div_mod (n + b - 1) b). lia.
Qed.

Lemma chunks_partition_no_wrap n b :
  is_count bits n -> is_count bits b -> 1 <= b ->
  n + b - 1 < modulus bits -> chunks_partition bits n b.
Proof.
  intros [Hn0 Hn] [_ Hbm] Hb Hfit.
  assert (Hk : idiv_ceil bits n b = (n + b - 1) / b)
    by (apply idiv_ceil_exact; lia).
  pose proof (ceil_mul_le n b Hb Hn0) as Hle.
  pose proof (ceil_mul_ge n b Hb Hn0) as Hge.
  assert (Hcb : forall i, 0 <= i < idiv_ceil bits n b ->
            chunk_bounds bits i n b = (i * b, Z.min n ((i + 1) * b))).
  { intros i Hi. apply chunk_bounds_exact; try lia. rewrite Hk in Hi. nia. }
  unfold chunks_partition, in_chunk.
  split; [exact Hcb | split; [ | split; [ | split ]]].
  - intros i Hi Hnext.
    rewrite (Hcb i), (Hcb (i + 1)) by lia. simpl.
    rewrite Hk in Hnext. nia.
  - intros i x Hi Hx. rewrite (Hcb i Hi) in Hx. simpl in Hx. nia.
  - intros x Hx. exists (x / b).
    assert (Hq : 0 <= x / b) by (apply Z.div_pos; lia).
    assert (Hlt : x / b < idiv_ceil bits n b).
    { rewrite Hk. apply Z.div_lt_upper_bound; lia. }
    split; [lia|]. rewrite (Hcb _ (conj Hq Hlt)). simpl.
    pose proof (Z.mul_div_le x b).
    pose proof (Z.mod_pos_bound x b). pose proof (Z.div_mod x b). nia.
  - intros i j x Hi Hj Hxi Hxj.
    rewrite (Hcb i Hi) in Hxi. rewrite (Hcb j Hj) in Hxj. simpl in *. nia.
Qed.

Lemma chunks_partition_needs_no_wrap n b :
  is_count bits n -> is_count bits b -> 1 <= b ->
  chunks_partition bits n b -> n + b - 1 < modulus bits.
Proof.
  intros [Hn0 Hn] [_ Hbm] Hb (Hcb & _ & _ & Hcover & _).
  destruct (Z_lt_ge_dec (n + b - 1) (modulus bits)) as [|Hwrap]; [assumption|].
  exfalso.
  assert (Hk : idiv_ceil bits n b = (n + b - 1 - modulus bits) / b)
    by (apply idiv_ceil_wrapped; lia).
  assert (Hn1 : 0 <= n - 1 < n) by lia.
  destruct (Hcover (n - 1) Hn1) as (i & Hi & Hin).
  unfold in_chunk in Hin. rewrite (Hcb i Hi) in Hin. simpl in Hin.
  rewrite Hk in Hi.
  pose proof (Z.mul_div_le (n + b - 1 - modulus bits) b). nia.
Qed.
End CountArithmetic.

(** C10, as amended: for a node count [n] and a chunk size [b >= 1] whose
    sum [n + b - 1] is representable in a [count], the chunks
    [chunk_bounds i n b] for [i = 0 .. idiv_ceil n b - 1] are the
    half-open intervals [[i*b, min n ((i+1)*b))], each ending where the
    next begins, they lie in [[0, n)], and every position of [[0, n)]
    belongs to exactly one of them.  The
    bound is exact: when [n + b - 1] wraps around, the chunks do not
    cover the range. *)
Theorem chunks_partition_iff_no_wrap (bits : Z) (n b : count) :
  0 <= bits -> is_count bits n -> is_count bits b -> 1 <= b ->
  (chunks_partition bits n b <-> n + b - 1 < modulus bits).
Proof.
  intros Hbits Hn Hb Hb1. split.
  - apply chunks_partition_needs_no_wrap; assumption.
  - apply chunks_partition_no_wrap; assumption.
Qed.

Lemma chunks_partition_iff_no_wrap_witness : chunks_partition 64 10 3.
Proof.
  apply (chunks_partition_iff_no_wrap 64 10 3);
    unfold is_count, modulus; cbn; lia.
Defined.

(** C10, as stated, fails for 64-bit counts at [n = 2^64 - 1], [b = 2]:
    [a + b - 1] wraps to [0], [idiv_ceil] yields no chunk at all, and
    position [0] belongs to no chunk. *)
Lemma chunks_partition_wraps :
  is_count 64 (2 ^ 64 - 1) /\ is_count 64 2 /\ 1 <= 2
  /\ idiv_ceil 64 (2 ^ 64 - 1) 2 = 0
  /\ ~ chunks_partition 64 (2 ^ 64 - 1) 2.
Proof.
  unfold is_count, modulus.
  change (2 ^ 64) with 18446744073709551616.
  assert (Hk : idiv_ceil 64 (18446744073709551616 - 1) 2 = 0) by reflexivity.
  repeat split; try lia; try exact Hk.
  intros (_ & _ & _ & Hcover & _).
  destruct (Hcover 0) as (i & Hi & _); [lia|].
  rewrite Hk in Hi. lia.
Qed.

(** A small range, chunk by chunk. *)
Example chunk_bounds_10_by_3 :
  idiv_ceil 64 10 3 = 4
  /\ map (fun i => chunk_bounds 64 i 10 3) [0; 1; 2; 3]
     = [(0, 3); (3, 6); (6, 9); (9, 10)].
Proof. split; reflexivity. Qed.

(** ** Construction                                                    *)

Lemma eqb_neq_false (s t : String.string) : s <> t -> String.eqb s t = false.
Proof. intros H. apply String.eqb_neq. exact H. Qed.

Lemma convert_accepts :
  convert_string_to_parallelization_type "none"%string
    = Returned ParallelizationType.None
  /\ convert_string_to_parallelization_type "relaxmap"%string
    = Returned ParallelizationType.RelaxMap
  /\ convert_string_to_parallelization_type "synchronous"%string
    = Returned ParallelizationType.Synchronous.
Proof. repeat split. Qed.

Lemma convert_rejects (s : String.string) :
  s <> "none"%string -> s <> "relaxmap"%string -> s <> "synchronous"%string ->
  convert_string_to_parallelization_type s
  = Thrown (String.append "Invalid parallelization type for map equation Louvain: " s).
Proof.
  intros H1 H2 H3. unfold convert_string_to_parallelization_type.
  rewrite (eqb_neq_false _ _ H1), (eqb_neq_false _ _ H2), (eqb_neq_false _ _ H3).
  reflexivity.
Qed.

(** C3: the three recognised names select their parallelization type;
    every other string makes construction leave with an exception whose
    text names the rejected value, no object is built and no default is
    substituted. *)
Theorem construction_checks_strategy
    (hier : option bool) (maxIter : option count) (s : String.string) :
  LouvainMapEquation hier maxIter (Some "none"%string)
    = Returned (mkConfig (or_default false hier) (or_default 32%Z maxIter)
                         ParallelizationType.None)
  /\ LouvainMapEquation hier maxIter (Some "relaxmap"%string)
    = Returned (mkConfig (or_default false hier) (or_default 32%Z maxIter)
                         ParallelizationType.RelaxMap)
  /\ LouvainMapEquation hier maxIter (Some "synchronous"%string)
    = Returned (mkConfig (or_default false hier) (or_default 32%Z maxIter)
                         ParallelizationType.Synchronous)
  /\ (s <> "none"%string -> s <> "relaxmap"%string -> s <> "synchronous"%string ->
      LouvainMapEquation hier maxIter (Some s)
      = Thrown (String.append "Invalid parallelization type for map equation Louvain: " s)
      /\ forall cfg, LouvainMapEquation hier maxIter (Some s) <> Returned cfg).
Proof.
  repeat split; try reflexivity.
  - unfold LouvainMapEquation. simpl or_default.
    rewrite convert_rejects by assumption. reflexivity.
  - intros cfg. unfold LouvainMapEquation. simpl or_default.
    rewrite convert_rejects by assumption. discriminate.
Qed.

Lemma construction_checks_strategy_witness :
  LouvainMapEquation Datatypes.None Datatypes.None (Some "Synchronous"%string)
  = Thrown "Invalid parallelization type for map equation Louvain: Synchronous"%string.
Proof.
  apply (construction_checks_strategy Datatypes.None Datatypes.None "Synchronous"%string);
    discriminate.
Defined.

(** C9: the defaults of the public constructor are [hierarchical = false],
    [maxIterations = 32] and [parallelizationStrategy = "relaxmap"], so a
    construction from a graph alone selects the lock-based strategy. *)
Theorem constructor_defaults :
  LouvainMapEquation Datatypes.None Datatypes.None Datatypes.None
    = Returned (mkConfig false 32%Z ParallelizationType.RelaxMap)
  /\ (forall hier maxIter,
        LouvainMapEquation hier maxIter Datatypes.None
        = LouvainMapEquation hier maxIter (Some "relaxmap"%string))
  /\ (forall maxIter strategy,
        LouvainMapEquation Datatypes.None maxIter strategy
        = LouvainMapEquation (Some false) maxIter strategy)
  /\ (forall hier strategy,
        LouvainMapEquation hier Datatypes.None strategy
        = LouvainMapEquation hier (Some 32%Z) strategy).
Proof. repeat split. Qed.

(** ** Cluster statistics                                              *)

Open Scope nat_scope.

Section Vectors.

Variable A : Arithmetic.

Lemma length_adjust (i : nat) (d : num A) (l : list (num A)) :
  length (adjust i d l) = length l.
Proof.
  revert i. induction l as [|x l IH]; intros [|i]; simpl; auto.
Qed.

Lemma length_assign {T : Type} (i : nat) (v : T) (l : list T) :
  length (assign i v l) = length l.
Proof.
  revert i. induction l as [|x l IH]; intros [|i]; simpl; auto.
Qed.

Lemma nth_assign {T : Type} (i j : nat) (v d : T) (l : list T) :
  nth j (assign i v l) d
  = if Nat.eqb i j && Nat.ltb i (length l) then v else nth j l d.
Proof.
  revert i j. induction l as [|x l IH]; intros i j.
  - rewrite andb_false_r. destruct i; reflexivity.
  - destruct i as [|i], j as [|j]; simpl; try reflexivity.
    rewrite IH. reflexivity.
Qed.

Lemma length_applyDeltas (d : nat -> num A) (from : nat) (l : list (num A)) :
  length (applyDeltas d from l) = length l.
Proof.
  revert from. induction l as [|x l IH]; intros from; simpl; auto.
Qed.

Lemma applyDeltas_ext (d d' : nat -> num A) (from : nat) (l : list (num A)) :
  (forall c, d c = d' c) -> applyDeltas d from l = applyDeltas d' from l.
Proof.
  intros H. revert from. induction l as [|x l IH]; intros from; simpl.
  - reflexivity.
  - rewrite H, IH. reflexivity.
Qed.

(** No operation writes TotalVolume. *)
Lemma commit_totalVolume (ptype : ParallelizationType.t)
    (moves : list (Move A)) (st : State A) :
  totalVolume (commit ptype moves st) = totalVolume st.
Proof.
  assert (Heager : totalVolume (fold_left (fun s m => applyMove m s) moves st)
                   = totalVolume st).
  { revert st. induction moves as [|m moves IH]; intros st; simpl.
    - reflexivity.
    - rewrite IH. reflexivity. }
  destruct ptype; simpl; try exact Heager. reflexivity.
Qed.

Lemma commitAll_totalVolume (ptype : ParallelizationType.t)
    (batches : list (list (Move A))) (st : State A) :
  totalVolume (commitAll ptype batches st) = totalVolume st.
Proof.
  revert st. induction batches as [|moves batches IH]; intros st.
  - reflexivity.
  - change (commitAll ptype (moves :: batches) st)
      with (commitAll ptype batches (commit ptype moves st)).
    rewrite IH. apply commit_totalVolume.
Qed.

Lemma initialize_volumes (G : Graph A) :
  sum (clusterVolume (initialize G)) = totalVolume (initialize G)
  /\ totalVolume (initialize G)
     = sum (map (fun u => weightedDegree G u + two * selfLoopWeight G u)%num
                (seq 0 (numberOfNodes G)))
  /\ length (clusterVolume (initialize G)) = numberOfNodes G.
Proof.
  repeat split. simpl. rewrite length_map, length_seq. reflexivity.
Qed.

End Vectors.

(** *** Sums without rounding *)

Section ExactSums.

Variable A : Arithmetic.
Hypothesis A_exact : exact A.

Let A_ring_theory
  : ring_theory (@zero A) one add mul sub opp eq := A_exact.
Add Ring A_ring : A_ring_theory.

Lemma sum_from (l : list (num A)) (z : num A) :
  fold_left add l z = (z + sum l)%num.
Proof.
  unfold sum. revert z. induction l as [|x l IH]; intros z; simpl.
  - ring.
  - rewrite (IH (z + x)%num), (IH (zero + x)%num). ring.
Qed.

Lemma sum_nil : sum (@nil (num A)) = zero.
Proof. reflexivity. Qed.

Lemma sum_cons (x : num A) (l : list (num A)) :
  sum (x :: l) = (x + sum l)%num.
Proof.
  unfold sum at 1. simpl. rewrite sum_from. ring.
Qed.

Lemma sum_map_plus {T : Type} (f g : T -> num A) (l : list T) :
  sum (map (fun a => f a + g a)%num l) = (sum (map f l) + sum (map g l))%num.
Proof.
  induction l as [|a l IH]; simpl.
  - rewrite sum_nil. ring.
  - rewrite !sum_cons, IH. ring.
Qed.

Lemma sum_map_zero {T : Type} (l : list T) :
  sum (map (fun _ => @zero A) l) = zero.
Proof.
  induction l as [|a l IH]; simpl.
  - reflexivity.
  - rewrite sum_cons, IH. ring.
Qed.

Lemma sum_map_ext {T : Type} (f g : T -> num A) (l : list T) :
  (forall a, In a l -> f a = g a) -> sum (map f l) = sum (map g l).
Proof.
  intros H. f_equal. apply map_ext_in. exact H.
Qed.

(** Summing a table by rows or by columns gives the same total. *)
Lemma sum_map_swap {T U : Type} (f : T -> U -> num A) (la : list T) (lb : list U) :
  sum (map (fun a => sum (map (f a) lb)) la)
  = sum (map (fun b => sum (map (fun a => f a b) la)) lb).
Proof.
  induction lb as [|b lb IH]; simpl.
  - apply sum_map_zero.
  - rewrite sum_cons, <- IH.
    rewrite <- (sum_map_plus (fun a => f a b)).
    apply sum_map_ext. intros a _. apply sum_cons.
Qed.

(** Only cluster [t] contributes when each cluster [c] adds [v] iff
    [c = t]. *)
Lemma sum_indicator (t : nat) (v : num A) (from len : nat) :
  from <= t < from + len ->
  sum (map (fun c => if Nat.eqb t c then v else zero) (seq from len)) = v.
Proof.
  revert from. induction len as [|len IH]; intros from H; simpl.
  - lia.
  - rewrite sum_cons. destruct (Nat.eqb_spec t from) as [->|Hne].
    + rewrite (sum_map_ext _ (fun _ => zero)).
      * rewrite sum_map_zero. ring.
      * intros c Hc. apply in_seq in Hc.
        destruct (Nat.eqb_spec from c); [lia | reflexivity].
    + rewrite IH by lia. ring.
Qed.

Lemma sum_adjust (i : nat) (d : num A) (l : list (num A)) :
  i < length l -> sum (adjust i d l) = (sum l + d)%num.
Proof.
  revert i. induction l as [|x l IH]; intros [|i] H; simpl in *; try lia.
  - rewrite !sum_cons. ring.
  - rewrite !sum_cons, IH by lia. ring.
Qed.

Lemma sum_applyDeltas (d : nat -> num A) (from : nat) (l : list (num A)) :
  sum (applyDeltas d from l)
  = (sum l + sum (map d (seq from (length l))))%num.
Proof.
  revert from. induction l as [|x l IH]; intros from; simpl.
  - rewrite sum_nil. ring.
  - rewrite !sum_cons, IH. ring.
Qed.

(** *** The volume invariant *)

Lemma volumeDelta_cancels (n : nat) (m : Move A) :
  inRange n m -> sum (map (fun c => volumeDelta c m) (seq 0 n)) = zero.
Proof.
  intros [Ho Ht]. unfold volumeDelta.
  rewrite (sum_map_ext _
    (fun c => (if Nat.eqb (targetCluster m) c then volume m else zero)
              + (if Nat.eqb (originCluster m) c then - volume m else zero))%num).
  - rewrite (sum_map_plus
               (fun c => if Nat.eqb (targetCluster m) c then volume m else zero)
               (fun c => if Nat.eqb (originCluster m) c
                         then (- volume m)%num else zero)).
    rewrite !sum_indicator by lia. ring.
  - intros c _. destruct (Nat.eqb (originCluster m) c); ring.
Qed.

Lemma summed_volumeDelta_cancels (n : nat) (moves : list (Move A)) :
  Forall (inRange n) moves ->
  sum (map (summedDelta volumeDelta moves) (seq 0 n)) = zero.
Proof.
  intros H. unfold summedDelta.
  rewrite (sum_map_swap volumeDelta (seq 0 n) moves).
  rewrite (sum_map_ext _ (fun _ => zero)).
  - apply sum_map_zero.
  - intros m Hm. apply volumeDelta_cancels.
    rewrite Forall_forall in H. apply H. exact Hm.
Qed.

Lemma initialize_balanced (G : Graph A) :
  volumesBalanced (numberOfNodes G) (initialize G).
Proof.
  split; simpl.
  - rewrite length_map, length_seq. reflexivity.
  - reflexivity.
Qed.

Lemma applyMove_balanced (n : nat) (m : Move A) (st : State A) :
  inRange n m -> volumesBalanced n st -> volumesBalanced n (applyMove m st).
Proof.
  intros [Ho Ht] [Hlen Hsum]. split; simpl.
  - rewrite !length_adjust. exact Hlen.
  - rewrite !sum_adjust by (rewrite ?length_adjust; lia).
    rewrite Hsum. ring.
Qed.

Lemma aggregate_balanced (n : nat) (moves : list (Move A)) (st : State A) :
  Forall (inRange n) moves -> volumesBalanced n st ->
  volumesBalanced n (aggregateAndApplyCutAndVolumeUpdates moves st).
Proof.
  intros Hm [Hlen Hsum]. split; simpl.
  - rewrite length_applyDeltas. exact Hlen.
  - rewrite sum_applyDeltas, Hlen, summed_volumeDelta_cancels by exact Hm.
    rewrite Hsum. ring.
Qed.

Lemma commit_balanced (n : nat) (ptype : ParallelizationType.t)
    (moves : list (Move A)) (st : State A) :
  Forall (inRange n) moves -> volumesBalanced n st ->
  volumesBalanced n (commit ptype moves st).
Proof.
  intros Hm Hst.
  assert (Heager : volumesBalanced n (fold_left (fun s m => applyMove m s) moves st)).
  { revert st Hst. induction Hm as [|m moves Hin _ IH]; intros st Hst; simpl.
    - exact Hst.
    - apply IH. apply applyMove_balanced; assumption. }
  destruct ptype; simpl; try exact Heager.
  apply aggregate_balanced; assumption.
Qed.

Lemma commitAll_balanced (n : nat) (ptype : ParallelizationType.t)
    (batches : list (list (Move A))) (st : State A) :
  Forall (Forall (inRange n)) batches -> volumesBalanced n st ->
  volumesBalanced n (commitAll ptype batches st).
Proof.
  intros Hb. revert st.
  induction Hb as [|moves batches Hm _ IH]; intros st Hst; simpl.
  - exact Hst.
  - apply IH. apply commit_balanced; assumption.
Qed.

End ExactSums.

Lemma rational_exact : exact rational.
Proof. exact Qcrt. Qed.

Lemma rational_orderFree : orderFree rational.
Proof.
  split.
  - intros x y. apply Qcplus_comm.
  - intros x y z. apply Qcplus_assoc.
Qed.

(** Two closed doubles are different when their comparison for equality
    evaluates to [false]. *)
Ltac floats_differ :=
  let H := fresh "H" in
  let E := fresh "E" in
  intros H;
  match type of H with
  | ?x = ?y =>
      assert (E : PrimFloat.eqb x y = false) by (vm_compute; reflexivity);
      rewrite H in E; vm_compute in E; discriminate E
  end.




(** ** Move aggregation                                                *)

Section OrderFreeSums.

Variable A : Arithmetic.
Hypothesis A_orderFree : orderFree A.

Lemma add_swap (z x y : num A) : ((z + x) + y)%num = ((z + y) + x)%num.
Proof.
  destruct A_orderFree as [Hcomm Hassoc].
  rewrite <- !Hassoc. f_equal. apply Hcomm.
Qed.

Lemma fold_add_Permutation (l l' : list (num A)) :
  Permutation l l' -> forall z, fold_left add l z = fold_left add l' z.
Proof.
  induction 1 as [| x l l' _ IH | x y l | l l' l'' _ IH1 _ IH2]; intros z; simpl.
  - reflexivity.
  - apply IH.
  - rewrite add_swap. reflexivity.
  - rewrite IH1. apply IH2.
Qed.

Lemma sum_Permutation (l l' : list (num A)) :
  Permutation l l' -> sum l = sum l'.
Proof. intros H. unfold sum. apply fold_add_Permutation. exact H. Qed.

Lemma summedDelta_Permutation (delta : nat -> Move A -> num A)
    (moves moves' : list (Move A)) (c : nat) :
  Permutation moves moves' -> summedDelta delta moves c = summedDelta delta moves' c.
Proof.
  intros H. unfold summedDelta. apply sum_Permutation.
  apply Permutation_map. exact H.
Qed.

Lemma aggregate_Permutation (moves moves' : list (Move A)) (st : State A) :
  Permutation moves moves' ->
  aggregateAndApplyCutAndVolumeUpdates moves st
  = aggregateAndApplyCutAndVolumeUpdates moves' st.
Proof.
  intros H. unfold aggregateAndApplyCutAndVolumeUpdates. f_equal.
  - apply applyDeltas_ext. intros c. apply summedDelta_Permutation. exact H.
  - apply applyDeltas_ext. intros c. apply summedDelta_Permutation. exact H.
  - f_equal. apply sum_Permutation. apply Permutation_map. exact H.
Qed.

End OrderFreeSums.

Lemma Permutation_concat_lists {T : Type} (ls ls' : list (list T)) :
  Permutation ls ls' -> Permutation (List.concat ls) (List.concat ls').
Proof.
  induction 1 as [| l ls ls' _ IH | l1 l2 ls | ls ls' ls'' _ IH1 _ IH2]; simpl.
  - constructor.
  - apply Permutation_app_head. exact IH.
  - rewrite !app_assoc. apply Permutation_app_tail. apply Permutation_app_comm.
  - eapply Permutation_trans; eassumption.
Qed.




(** ** The aggregator and move-by-move application                     *)

Section AggregateEager.

Variable A : Arithmetic.
Hypothesis A_exact : exact A.

Let A_ring_theory'
  : ring_theory (@zero A) one add mul sub opp eq := A_exact.
Add Ring A_ring' : A_ring_theory'.

Lemma nth_adjust (i : nat) (e : num A) (l : list (num A)) (j : nat) :
  j < length l ->
  nth j (adjust i e l) zero
  = (nth j l zero + (if Nat.eqb i j then e else zero))%num.
Proof.
  revert i j. induction l as [|x l IH]; intros i j Hj; simpl in Hj.
  - lia.
  - destruct i as [|i], j as [|j]; simpl; try ring.
    apply IH. lia.
Qed.

Lemma nth_applyDeltas (d : nat -> num A) (from : nat) (l : list (num A)) (j : nat) :
  j < length l ->
  nth j (applyDeltas d from l) zero
  = (nth j l zero + d (from + j)%nat)%num.
Proof.
  revert from j. induction l as [|x l IH]; intros from j Hj; simpl in Hj.
  - lia.
  - destruct j as [|j]; simpl.
    + rewrite Nat.add_0_r. reflexivity.
    + rewrite IH by lia. rewrite Nat.add_succ_r. reflexivity.
Qed.

Lemma eager_lengths (moves : list (Move A)) (st : State A) :
  length (clusterCut (fold_left (fun s m => applyMove m s) moves st))
  = length (clusterCut st)
  /\ length (clusterVolume (fold_left (fun s m => applyMove m s) moves st))
     = length (clusterVolume st).
Proof.
  revert st. induction moves as [|m moves IH]; intros st; simpl.
  - split; reflexivity.
  - destruct (IH (applyMove m st)) as [Hc Hv]. rewrite Hc, Hv. simpl.
    rewrite !length_adjust. split; reflexivity.
Qed.

Lemma eager_entries (moves : list (Move A)) (st : State A) (c : nat) :
  (c < length (clusterCut st) ->
   nth c (clusterCut (fold_left (fun s m => applyMove m s) moves st)) zero
   = (nth c (clusterCut st) zero + summedDelta cutDelta moves c)%num)
  /\ (c < length (clusterVolume st) ->
      nth c (clusterVolume (fold_left (fun s m => applyMove m s) moves st)) zero
      = (nth c (clusterVolume st) zero + summedDelta volumeDelta moves c)%num).
Proof.
  revert st. induction moves as [|m moves IH]; intros st.
  - unfold summedDelta, sum. simpl. split; intros _; ring.
  - destruct (IH (applyMove m st)) as [Hc Hv]. unfold summedDelta in *.
    cbn [fold_left map]. rewrite !(sum_cons A A_exact).
    split; intros Hlt.
    + rewrite Hc by (simpl; rewrite !length_adjust; exact Hlt). simpl.
      rewrite !nth_adjust by (rewrite ?length_adjust; exact Hlt).
      unfold cutDelta. ring.
    + rewrite Hv by (simpl; rewrite !length_adjust; exact Hlt). simpl.
      rewrite !nth_adjust by (rewrite ?length_adjust; exact Hlt).
      unfold volumeDelta.
      destruct (Nat.eqb (originCluster m) c), (Nat.eqb (targetCluster m) c); ring.
Qed.

Lemma eager_rest (moves : list (Move A)) (st : State A) :
  result (fold_left (fun s m => applyMove m s) moves st) = result st
  /\ nextPartition (fold_left (fun s m => applyMove m s) moves st)
     = nextPartition st
  /\ totalVolume (fold_left (fun s m => applyMove m s) moves st)
     = totalVolume st
  /\ totalCut (fold_left (fun s m => applyMove m s) moves st)
     = (totalCut st
        + sum (map (fun m => cutUpdateToOriginCluster m
                             + cutUpdateToTargetCluster m) moves))%num.
Proof.
  revert st. induction moves as [|m moves IH]; intros st.
  - unfold sum. simpl. repeat split. ring.
  - destruct (IH (applyMove m st)) as (Hr & Hn & Hv & Hc).
    cbn [fold_left map]. rewrite Hr, Hn, Hv, Hc, (sum_cons A A_exact).
    simpl. repeat split. ring.
Qed.

(** In an exact arithmetic the aggregator leaves the statistics in the state
    that applying the moves of the batch one by one would lead to. *)
Lemma aggregate_agrees_with_eager (moves : list (Move A)) (st : State A) :
  aggregateAndApplyCutAndVolumeUpdates moves st
  = fold_left (fun s m => applyMove m s) moves st.
Proof.
  destruct (eager_rest moves st) as (Hr & Hn & Hv & Hc).
  destruct (eager_lengths moves st) as [Hlc Hlv].
  destruct (fold_left (fun s m => applyMove m s) moves st)
    as [r np cut vol tc tv] eqn:Heager.
  simpl in *. subst r np tv tc.
  unfold aggregateAndApplyCutAndVolumeUpdates. f_equal.
  - apply (nth_ext _ _ zero zero).
    + rewrite length_applyDeltas. symmetry. exact Hlc.
    + intros c Hlt. rewrite length_applyDeltas in Hlt.
      rewrite nth_applyDeltas by exact Hlt. simpl.
      destruct (eager_entries moves st c) as [He _].
      rewrite Heager in He. simpl in He. symmetry. apply He. exact Hlt.
  - apply (nth_ext _ _ zero zero).
    + rewrite length_applyDeltas. symmetry. exact Hlv.
    + intros c Hlt. rewrite length_applyDeltas in Hlt.
      rewrite nth_applyDeltas by exact Hlt. simpl.
      destruct (eager_entries moves st c) as [_ He].
      rewrite Heager in He. simpl in He. symmetry. apply He. exact Hlt.
Qed.

End AggregateEager.

(** ** The pass loop                                                   *)

Section Loop.

Variable A : Arithmetic.
Variable onePass : nat -> State A -> nat * State A.

Lemma movedIn_zero (iteration : nat) (st : State A) :
  movedIn onePass iteration 0 st = fst (onePass iteration st).
Proof. unfold movedIn. simpl. rewrite Nat.add_0_r. reflexivity. Qed.

Lemma movedIn_succ (iteration k : nat) (st : State A) :
  movedIn onePass iteration (S k) st
  = movedIn onePass (S iteration) k (snd (onePass iteration st)).
Proof. unfold movedIn. simpl. rewrite Nat.add_succ_r. reflexivity. Qed.

(** What the loop returns, in terms of the passes it is made of. *)
Lemma localMovingLoop_passes (cap iteration : nat) (st : State A) :
  let r := localMovingLoop onePass cap iteration st in
  let k := length (fst r) in
  snd r = stateAfter onePass iteration k st
  /\ k <= cap
  /\ (forall i, i < k -> nth i (fst r) 0 = movedIn onePass iteration i st)
  /\ (forall i, S i < k -> 0 < movedIn onePass iteration i st)
  /\ (k = cap \/ (0 < k /\ movedIn onePass iteration (k - 1) st = 0)).
Proof.
  revert iteration st.
  induction cap as [|cap IH]; intros iteration st; simpl.
  - split; [reflexivity|]. split; [lia|].
    split; [intros i Hi; lia|]. split; [intros i Hi; lia|].
    left. reflexivity.
  - destruct (Nat.eqb_spec (fst (onePass iteration st)) 0) as [Hq|Hq]; simpl.
    + split; [reflexivity|]. split; [lia|]. split; [|split].
      * intros [|i] Hi; [|lia]. rewrite movedIn_zero. reflexivity.
      * intros i Hi. lia.
      * right. split; [lia|]. rewrite movedIn_zero. exact Hq.
    + destruct (IH (S iteration) (snd (onePass iteration st)))
        as (Hst & Hle & Hlog & Hpos & Hstop).
      split; [exact Hst|]. split; [lia|]. split; [|split].
      * intros [|i] Hi.
        -- rewrite movedIn_zero. reflexivity.
        -- rewrite movedIn_succ. apply Hlog. lia.
      * intros [|i] Hi.
        -- rewrite movedIn_zero. lia.
        -- rewrite movedIn_succ. apply Hpos. lia.
      * destruct Hstop as [Hcap | [Hk Hz]].
        -- left. lia.
        -- right. split; [lia|].
           destruct (length (fst (localMovingLoop onePass cap (S iteration)
                                    (snd (onePass iteration st))))) as [|k'];
             [lia|].
           simpl in *. rewrite Nat.sub_0_r in Hz.
           rewrite movedIn_succ. exact Hz.
Qed.

Lemma stateAfter_invariant (P : State A -> Prop) :
  (forall iteration st, P st -> P (snd (onePass iteration st))) ->
  forall k iteration st, P st -> P (stateAfter onePass iteration k st).
Proof.
  intros Hstep. induction k as [|k IH]; intros iteration st Hst; simpl.
  - exact Hst.
  - apply IH. apply Hstep. exact Hst.
Qed.

End Loop.

Lemma localMovingLoop_ext (A : Arithmetic)
    (f g : nat -> State A -> nat * State A) :
  (forall iteration st, f iteration st = g iteration st) ->
  forall cap iteration st,
    localMovingLoop f cap iteration st = localMovingLoop g cap iteration st.
Proof.
  intros H. induction cap as [|cap IH]; intros iteration st; simpl.
  - reflexivity.
  - rewrite H, IH. reflexivity.
Qed.

Lemma localMovingPhase_is_stateAfter
    (A : Arithmetic) (fitnessChange : FitnessEvaluator A)
    (tolerance : num A) (cfg : Config) (G : Graph A)
    (schedule : nat -> PassSchedule) :
  snd (localMovingPhase fitnessChange tolerance cfg G schedule)
  = stateAfter
      (fun iteration =>
         pass fitnessChange tolerance G (parallelizationType cfg) (schedule iteration))
      0 (length (fst (localMovingPhase fitnessChange tolerance cfg G schedule)))
      (initialize G)
  /\ length (fst (localMovingPhase fitnessChange tolerance cfg G schedule))
     <= Z.to_nat (maxIterations cfg).
Proof.
  destruct (localMovingLoop_passes A
              (fun iteration =>
                 pass fitnessChange tolerance G (parallelizationType cfg)
                      (schedule iteration))
              (Z.to_nat (maxIterations cfg)) 0 (initialize G)) as (H1 & H2 & _).
  split; assumption.
Qed.

(** C6: the pass loop of the engine always returns, and the number [k] of
    passes it has made by then is determined by two conditions alone: it
    never exceeds the cap [maxIterations]; every pass before the last one
    moved at least one node (the loop never goes on after a quiescent
    pass); and the loop stops only because [k] has reached the cap or
    because the last pass was quiescent.  The state returned is the one
    reached by making those [k] passes, and the log holds the number of
    nodes each of them moved. *)
Theorem local_moving_stops_at_quiescence_or_cap
    (A : Arithmetic) (fitnessChange : FitnessEvaluator A)
    (tolerance : num A) (cfg : Config) (G : Graph A)
    (schedule : nat -> PassSchedule) :
  let onePass :=
    fun iteration =>
      pass fitnessChange tolerance G (parallelizationType cfg) (schedule iteration) in
  let cap := Z.to_nat (maxIterations cfg) in
  let r := localMovingPhase fitnessChange tolerance cfg G schedule in
  let k := length (fst r) in
  snd r = stateAfter onePass 0 k (initialize G)
  /\ k <= cap
  /\ (forall i, i < k -> nth i (fst r) 0 = movedIn onePass 0 i (initialize G))
  /\ (forall i, S i < k -> 0 < movedIn onePass 0 i (initialize G))
  /\ (k = cap \/ (0 < k /\ movedIn onePass 0 (k - 1) (initialize G) = 0)).
Proof.
  intros onePass cap r k.
  exact (localMovingLoop_passes A onePass cap 0 (initialize G)).
Qed.

(** ** Decisions of the engine                                         *)

Section Decisions.

Variable A : Arithmetic.
Variable fitnessChange : FitnessEvaluator A.
Variable tolerance : num A.
Variable G : Graph A.

Lemma addWeight_keys (c : nat) (w : num A) (acc : list (nat * num A)) (k : nat) :
  In k (map fst (addWeight c w acc)) -> k = c \/ In k (map fst acc).
Proof.
  induction acc as [|[c' w'] acc IH]; simpl.
  - intros [H|[]]. left. symmetry. exact H.
  - destruct (Nat.eqb c' c); simpl.
    + intros [H|H]; right; [left | right]; assumption.
    + intros [H|H].
      * right. left. exact H.
      * destruct (IH H) as [Hk|Hk]; [left | right; right]; assumption.
Qed.

(** Every cluster the accumulator has touched is the cluster of some
    neighbour other than the node itself. *)
Lemma accumulate_keys (partition : list nat) (u k : nat) :
  In k (map fst (accumulate G partition u)) ->
  exists e, In e (edgesOf G u) /\ fst e <> u /\ k = subsetOf partition (fst e).
Proof.
  unfold accumulate.
  assert (Hgen : forall es (acc : list (nat * num A)),
    In k (map fst (fold_left
      (fun acc e => if Nat.eqb (fst e) u then acc
                    else addWeight (subsetOf partition (fst e)) (snd e) acc)
      es acc)) ->
    In k (map fst acc)
    \/ exists e, In e es /\ fst e <> u /\ k = subsetOf partition (fst e)).
  { induction es as [|e es IH]; intros acc H; simpl in H.
    - left. exact H.
    - destruct (IH _ H) as [Hacc | (e' & He' & Hne & Hk)].
      + destruct (Nat.eqb_spec (fst e) u) as [Heq|Hneq].
        * left. exact Hacc.
        * destruct (addWeight_keys _ _ _ _ Hacc) as [Hk|Hk].
          -- right. exists e. split; [left; reflexivity | split; assumption].
          -- left. exact Hk.
      + right. exists e'. split; [right; exact He' | split; assumption]. }
  intros H. destruct (Hgen _ _ H) as [[]|Hex]. exact Hex.
Qed.

(** The chosen target is one of the touched clusters and differs from the
    current cluster. *)
Lemma bestTarget_candidate (fit : nat -> num A -> num A) (cur : nat)
    (acc : list (nat * num A)) (c : nat) (w f : num A) :
  bestTarget fit cur acc = Some (c, w, f) ->
  In c (map fst acc) /\ c <> cur.
Proof.
  unfold bestTarget.
  assert (Hgen : forall l best r,
    fold_left
      (fun best e =>
         if Nat.eqb (fst e) cur then best
         else match best with
              | Datatypes.None => Some (fst e, snd e, fit (fst e) (snd e))
              | Some (bc, bw, bf) =>
                  if better (fit (fst e) (snd e)) (fst e) bf bc
                  then Some (fst e, snd e, fit (fst e) (snd e)) else best
              end) l best = Some r ->
    best = Some r \/ (In (fst (fst r)) (map fst l) /\ fst (fst r) <> cur)).
  { induction l as [|e l IH]; intros best r H; simpl in H.
    - left. exact H.
    - destruct (IH _ _ H) as [Hb | [Hin Hne]].
      + destruct (Nat.eqb_spec (fst e) cur) as [Heq|Hneq].
        * left. exact Hb.
        * destruct best as [[[bc bw] bf]|].
          -- destruct (better (fit (fst e) (snd e)) (fst e) bf bc).
             ++ right. inversion Hb; subst; simpl. split; [left; reflexivity | exact Hneq].
             ++ left. exact Hb.
          -- right. inversion Hb; subst; simpl. split; [left; reflexivity | exact Hneq].
      + right. split; [right; exact Hin | exact Hne]. }
  intros H. destruct (Hgen _ _ _ H) as [Hb | Hr]; [discriminate | exact Hr].
Qed.

Lemma decide_some (view : State A) (x : nat) (d : Decision A) :
  decide fitnessChange tolerance G view x = Some d ->
  currentOf d = subsetOf (result view) x
  /\ targetOf d <> currentOf d
  /\ exists e, In e (edgesOf G x) /\ fst e <> x
               /\ targetOf d = subsetOf (result view) (fst e).
Proof.
  unfold decide.
  destruct (bestTarget _ _ _) as [[[c w] f]|] eqn:Hbest; [|discriminate].
  destruct (ltb _ _); [|discriminate].
  intros H. inversion H; subst; simpl. clear H.
  destruct (bestTarget_candidate _ _ _ _ _ _ Hbest) as [Hin Hne].
  split; [reflexivity | split; [exact Hne |]].
  apply accumulate_keys. exact Hin.
Qed.

(** A node without incident edges has no candidate target. *)
Lemma decide_isolated (view : State A) (u : nat) :
  degree G u = 0 -> decide fitnessChange tolerance G view u = Datatypes.None.
Proof.
  unfold degree. intros H. apply length_zero_iff_nil in H.
  unfold decide, accumulate. rewrite H. reflexivity.
Qed.

(** *** Invariants of a pass *)

Section PassInvariant.

Variable P : State A -> Prop.
Variable Q : Move A -> Prop.

Hypothesis P_perform : forall view st x d,
  P view -> P st -> decide fitnessChange tolerance G view x = Some d ->
  P (snd (performMove x (weightedDegree G x) (selfLoopWeight G x)
            (currentOf d) (targetOf d) (weightToTargetOf d) (weightToCurrentOf d)
            st)).

Hypothesis P_defer : forall st x d,
  P st -> decide fitnessChange tolerance G st x = Some d ->
  P (mkState (result st) (assign x (targetOf d) (nextPartition st))
             (clusterCut st) (clusterVolume st) (totalCut st) (totalVolume st))
  /\ Q (moveOf G x d).

Hypothesis P_aggregate : forall moves st,
  Forall Q moves -> P st ->
  P (mkState (nextPartition st) (nextPartition st)
       (clusterCut (aggregateAndApplyCutAndVolumeUpdates moves st))
       (clusterVolume (aggregateAndApplyCutAndVolumeUpdates moves st))
       (totalCut (aggregateAndApplyCutAndVolumeUpdates moves st))
       (totalVolume (aggregateAndApplyCutAndVolumeUpdates moves st))).

Lemma staleView_invariant (lag : nat) (past : list (State A)) (st : State A) :
  Forall P past -> P st -> P (staleView lag past st).
Proof.
  intros Hpast Hst. destruct lag as [|k]; simpl; [exact Hst|].
  assert (Hlast : P (last past st)).
  { clear k. induction Hpast as [|s past Hs Hpast IH]; simpl.
    - exact Hst.
    - destruct past; [exact Hs | exact IH]. }
  revert k. induction Hpast as [|s past Hs Hpast IH]; intros [|k]; simpl;
    try exact Hlast; try exact Hs.
  destruct (Nat.lt_ge_cases k (length past)) as [Hlt|Hge].
  - rewrite (nth_indep _ _ (last past st) Hlt). apply IH.
    clear - Hpast Hst. induction Hpast as [|s' past Hs' Hpast IH]; simpl.
    + exact Hst.
    + destruct past; [exact Hs' | exact IH].
  - rewrite nth_overflow by exact Hge. exact Hlast.
Qed.

Lemma tryLocalMove_eager_invariant (x : nat) (moves : list (Move A))
    (view st : State A) :
  P view -> P st ->
  P (snd (tryLocalMove fitnessChange tolerance G x moves false view st)).
Proof.
  intros Hview Hst. unfold tryLocalMove.
  destruct (decide _ _ _ view x) as [d|] eqn:Hd; simpl.
  - apply (P_perform view); assumption.
  - exact Hst.
Qed.

Lemma localMovingFrom_invariant (relaxed : bool) (nodes : list nat) :
  forall lags past moved st,
    Forall P past -> P st ->
    P (snd (localMovingFrom fitnessChange tolerance G relaxed nodes lags past
              moved st)).
Proof.
  induction nodes as [|x nodes IH]; intros lags past moved st Hpast Hst; simpl.
  - exact Hst.
  - apply IH.
    + constructor; assumption.
    + apply tryLocalMove_eager_invariant; [|exact Hst].
      apply staleView_invariant; assumption.
Qed.

Lemma evaluateAll_invariant (nodes : list nat) :
  forall moved moves st,
    Forall Q moves -> P st ->
    P (snd (evaluateAll fitnessChange tolerance G nodes moved moves st))
    /\ Forall Q (snd (fst (evaluateAll fitnessChange tolerance G nodes moved
                             moves st))).
Proof.
  induction nodes as [|x nodes IH]; intros moved moves st Hmoves Hst; simpl.
  - split; assumption.
  - unfold tryLocalMove.
    destruct (decide _ _ _ st x) as [d|] eqn:Hd; simpl.
    + destruct (P_defer st x d Hst Hd) as [Hst' Hq].
      apply IH; [|exact Hst'].
      apply Forall_app. split; [exact Hmoves | constructor; [exact Hq | constructor]].
    + apply IH; assumption.
Qed.

Lemma pass_invariant (ptype : ParallelizationType.t) (ps : PassSchedule)
    (st : State A) :
  P st -> P (snd (pass fitnessChange tolerance G ptype ps st)).
Proof.
  intros Hst. destruct ptype; simpl.
  - apply localMovingFrom_invariant; [constructor | exact Hst].
  - apply localMovingFrom_invariant; [constructor | exact Hst].
  - destruct (evaluateAll_invariant (visitOrder ps) 0 [] st
                (Forall_nil Q) Hst) as [Hst' Hq].
    apply P_aggregate; assumption.
Qed.

End PassInvariant.

End Decisions.

(** ** Isolated nodes                                                  *)

Lemma subsetOf_singletons (n v : nat) :
  v < n -> subsetOf (allToSingletons n) v = v.
Proof. intros H. unfold subsetOf, allToSingletons. rewrite seq_nth; lia. Qed.

Lemma keepsAlone_singletons (n u : nat) : keepsAlone n u (allToSingletons n).
Proof.
  split.
  - apply length_seq.
  - intros v Hv. rewrite subsetOf_singletons by exact Hv. reflexivity.
Qed.

Lemma subsetOf_assign (x t : nat) (partition : list nat) (v : nat) :
  subsetOf (assign x t partition) v
  = if Nat.eqb x v && Nat.ltb x (length partition) then t
    else subsetOf partition v.
Proof. unfold subsetOf. apply nth_assign. Qed.

Lemma keepsAlone_assign (n u x t : nat) (partition : list nat) :
  x <> u -> t <> u -> keepsAlone n u partition ->
  keepsAlone n u (assign x t partition).
Proof.
  intros Hx Ht [Hlen Hiff]. split.
  - rewrite length_assign. exact Hlen.
  - intros v Hv. rewrite subsetOf_assign.
    destruct (Nat.eqb_spec x v) as [->|Hne]; simpl.
    + destruct (Nat.ltb v (length partition)).
      * split; intros H; [contradiction | congruence].
      * apply Hiff. exact Hv.
    + apply Hiff. exact Hv.
Qed.

Section Isolation.

Variable A : Arithmetic.
Variable fitnessChange : FitnessEvaluator A.
Variable tolerance : num A.
Variable G : Graph A.
Variable u : nat.

Hypothesis G_wellFormed : wellFormed G.
Hypothesis u_isolated : degree G u = 0.

(** A move decided on a state in which [u] is alone concerns another node
    and another cluster. *)
Lemma decide_avoids_isolated (view : State A) (x : nat) (d : Decision A) :
  keepsAlone (numberOfNodes G) u (result view) ->
  decide fitnessChange tolerance G view x = Some d ->
  x <> u /\ targetOf d <> u.
Proof.
  intros [_ Hiff] Hd. split.
  - intros ->. rewrite decide_isolated in Hd by exact u_isolated. discriminate.
  - destruct (decide_some _ _ _ _ _ _ _ Hd) as (_ & _ & [v w] & Hin & _ & Ht).
    simpl in Ht. destruct (G_wellFormed x v w Hin) as [Hv Hback].
    rewrite Ht. intros Heq. apply (Hiff v Hv) in Heq. subst v.
    unfold degree in u_isolated. apply length_zero_iff_nil in u_isolated.
    rewrite u_isolated in Hback. exact Hback.
Qed.

Lemma pass_keeps_isolated (ptype : ParallelizationType.t) (ps : PassSchedule)
    (st : State A) :
  aloneIn G u st -> aloneIn G u (snd (pass fitnessChange tolerance G ptype ps st)).
Proof.
  apply (pass_invariant A fitnessChange tolerance G (aloneIn G u) (fun _ => True)).
  - intros view s x d [Hview _] [Hres Hnext] Hd.
    destruct (decide_avoids_isolated view x d Hview Hd) as [Hx Ht].
    split; simpl; [apply keepsAlone_assign; assumption | exact Hnext].
  - intros s x d [Hres Hnext] Hd.
    destruct (decide_avoids_isolated s x d Hres Hd) as [Hx Ht].
    split; [|exact I].
    split; simpl; [exact Hres | apply keepsAlone_assign; assumption].
  - intros moves s _ [Hres Hnext]. split; simpl; exact Hnext.
Qed.

Lemma initialize_alone : aloneIn G u (initialize G).
Proof. split; simpl; apply keepsAlone_singletons. Qed.

End Isolation.

(** C5: in an undirected graph, a node [u] without incident edges and
    without self-loop weight is never moved and no node ever joins it:
    under each of the three strategies, in every arithmetic, whatever the
    visiting orders and the staleness of the reads, after any number [k]
    of passes [u] is in cluster [u] and is its only member; no evaluation
    of [u] yields a move; and the same holds in the state in which the
    engine stops. *)
Theorem isolated_node_stays_alone
    (A : Arithmetic) (fitnessChange : FitnessEvaluator A)
    (tolerance : num A) (cfg : Config) (G : Graph A)
    (schedule : nat -> PassSchedule) (u k : nat) :
  wellFormed G -> u < numberOfNodes G ->
  degree G u = 0 -> selfLoopWeight G u = zero ->
  let onePass :=
    fun iteration =>
      pass fitnessChange tolerance G (parallelizationType cfg) (schedule iteration) in
  let alone := fun st : State A =>
    subsetOf (result st) u = u
    /\ forall v, v < numberOfNodes G -> v <> u -> subsetOf (result st) v <> u in
  (forall view, decide fitnessChange tolerance G view u = Datatypes.None)
  /\ alone (stateAfter onePass 0 k (initialize G))
  /\ alone (snd (localMovingPhase fitnessChange tolerance cfg G schedule)).
Proof.
  intros Hwf Hu Hdeg _ onePass alone.
  assert (Hall : forall j, alone (stateAfter onePass 0 j (initialize G))).
  { intros j.
    assert (Hinv : aloneIn G u (stateAfter onePass 0 j (initialize G))).
    { apply stateAfter_invariant.
      - intros iteration st. apply pass_keeps_isolated; assumption.
      - apply initialize_alone. }
    destruct Hinv as [[_ Hiff] _]. split.
    - apply Hiff; [exact Hu | reflexivity].
    - intros v Hv Hne Heq. apply Hne. apply (Hiff v Hv). exact Heq. }
  split; [|split].
  - intros view. apply decide_isolated. exact Hdeg.
  - apply Hall.
  - destruct (localMovingPhase_is_stateAfter A fitnessChange tolerance
                cfg G schedule) as [Hst _].
    fold onePass in Hst. rewrite Hst. apply Hall.
Qed.

(** ** Volumes along the passes of the engine                          *)

Lemma partitionInRange_singletons (n : nat) :
  partitionInRange n (allToSingletons n).
Proof.
  split.
  - apply length_seq.
  - intros v Hv. rewrite subsetOf_singletons; assumption.
Qed.

Lemma partitionInRange_assign (n x t : nat) (partition : list nat) :
  t < n -> partitionInRange n partition ->
  partitionInRange n (assign x t partition).
Proof.
  intros Ht [Hlen Hlt]. split.
  - rewrite length_assign. exact Hlen.
  - intros v Hv. rewrite subsetOf_assign.
    destruct (Nat.eqb x v && Nat.ltb x (length partition)); [exact Ht | apply Hlt; exact Hv].
Qed.

Section EngineVolumes.

Variable A : Arithmetic.
Hypothesis A_exact : exact A.
Variable fitnessChange : FitnessEvaluator A.
Variable tolerance : num A.
Variable G : Graph A.
Variable total : num A.

Hypothesis G_wellFormed : wellFormed G.

(** The moves the engine decides on name clusters of the graph. *)
Lemma decide_inRange (view : State A) (x : nat) (d : Decision A) :
  partitionInRange (numberOfNodes G) (result view) ->
  decide fitnessChange tolerance G view x = Some d ->
  targetOf d < numberOfNodes G /\ inRange (numberOfNodes G) (moveOf G x d).
Proof.
  intros [Hlen Hlt] Hd.
  destruct (decide_some _ _ _ _ _ _ _ Hd) as (Hcur & _ & [v w] & Hin & _ & Ht).
  simpl in Ht. destruct (G_wellFormed x v w Hin) as [Hv _].
  assert (Htarget : targetOf d < numberOfNodes G)
    by (rewrite Ht; apply Hlt; exact Hv).
  split; [exact Htarget|]. split; simpl; [|exact Htarget].
  rewrite Hcur. destruct (Nat.lt_ge_cases x (numberOfNodes G)) as [Hx|Hx].
  - apply Hlt. exact Hx.
  - unfold subsetOf. rewrite nth_overflow by lia. lia.
Qed.

Lemma pass_consistent (ptype : ParallelizationType.t) (ps : PassSchedule)
    (st : State A) :
  consistentWith G total st ->
  consistentWith G total (snd (pass fitnessChange tolerance G ptype ps st)).
Proof.
  apply (pass_invariant A fitnessChange tolerance G (consistentWith G total)
           (inRange (numberOfNodes G))).
  - intros view s x d (_ & _ & Hview & _) (Hbal & Htot & Hres & Hnext) Hd.
    destruct (decide_inRange view x d Hview Hd) as [Ht Hm].
    split; [|split; [|split]].
    + exact (applyMove_balanced A A_exact _ _ s Hm Hbal).
    + exact Htot.
    + simpl. apply partitionInRange_assign; assumption.
    + exact Hnext.
  - intros s x d (Hbal & Htot & Hres & Hnext) Hd.
    destruct (decide_inRange s x d Hres Hd) as [Ht Hm].
    split; [|exact Hm].
    split; [exact Hbal | split; [exact Htot | split; [exact Hres |]]].
    simpl. apply partitionInRange_assign; assumption.
  - intros moves s Hmoves (Hbal & Htot & Hres & Hnext).
    split; [|split; [|split]].
    + exact (aggregate_balanced A A_exact _ _ s Hmoves Hbal).
    + exact Htot.
    + exact Hnext.
    + exact Hnext.
Qed.

End EngineVolumes.

Lemma initialize_consistent (A : Arithmetic) (G : Graph A) :
  consistentWith G (totalVolume (initialize G)) (initialize G).
Proof.
  split; [apply initialize_balanced | split; [reflexivity |]].
  split; simpl; apply partitionInRange_singletons.
Qed.

(** The moves the engine itself applies name clusters of the graph: on an
    undirected graph and in an exact arithmetic, after any number of
    passes of any strategy the cluster volumes add up to TotalVolume,
    which has kept its initial value. *)
Theorem engine_keeps_volumes_balanced
    (A : Arithmetic) (fitnessChange : FitnessEvaluator A)
    (tolerance : num A) (cfg : Config) (G : Graph A)
    (schedule : nat -> PassSchedule) (k : nat) :
  exact A -> wellFormed G ->
  let onePass :=
    fun iteration =>
      pass fitnessChange tolerance G (parallelizationType cfg) (schedule iteration) in
  sum (clusterVolume (stateAfter onePass 0 k (initialize G)))
  = totalVolume (stateAfter onePass 0 k (initialize G))
  /\ totalVolume (stateAfter onePass 0 k (initialize G))
     = totalVolume (initialize G).
Proof.
  intros Hexact Hwf onePass.
  assert (Hinv : consistentWith G (totalVolume (initialize G))
                   (stateAfter onePass 0 k (initialize G))).
  { apply stateAfter_invariant.
    - intros iteration st. apply pass_consistent; assumption.
    - apply initialize_consistent. }
  destruct Hinv as ([_ Hsum] & Htot & _). split; assumption.
Qed.

(** ** Runs                                                            *)

Section Runs.

Variable A : Arithmetic.
Variable fitnessChange : FitnessEvaluator A.
Variable tolerance : num A.
Variable coarsen : Graph A -> list nat -> Graph A.
Variable prolong : list nat -> list nat -> list nat.

Lemma runLevels_zero_iterations (hier : bool) (ptype : ParallelizationType.t)
    (G : Graph A) (schedule : nat -> nat -> PassSchedule) (levels level : nat) :
  runLevels fitnessChange tolerance coarsen prolong levels
            (mkConfig hier 0%Z ptype) G schedule level
  = allToSingletons (numberOfNodes G).
Proof.
  destruct levels as [|levels]; simpl.
  - reflexivity.
  - rewrite andb_false_r. reflexivity.
Qed.

End Runs.

(** C4: with [maxIterations = 0] the run returns the singleton partition,
    every node its own cluster, for each of the three strategies, with or
    without the hierarchical flag, in every arithmetic and whatever the
    schedule. *)
Theorem zero_iterations_give_singletons
    (A : Arithmetic) (fitnessChange : FitnessEvaluator A) (tolerance : num A)
    (coarsen : Graph A -> list nat -> Graph A)
    (prolong : list nat -> list nat -> list nat)
    (hier : bool) (ptype : ParallelizationType.t)
    (G : Graph A) (schedule : nat -> nat -> PassSchedule) :
  run fitnessChange tolerance coarsen prolong (mkConfig hier 0%Z ptype) G schedule
  = allToSingletons (numberOfNodes G)
  /\ forall u, u < numberOfNodes G ->
       subsetOf (run fitnessChange tolerance coarsen prolong
                     (mkConfig hier 0%Z ptype) G schedule) u = u.
Proof.
  unfold run. rewrite runLevels_zero_iterations. split.
  - reflexivity.
  - intros u Hu. apply subsetOf_singletons. exact Hu.
Qed.

(** ** The small instances                                             *)

Lemma pathGraph_wellFormed (A : Arithmetic) : wellFormed (pathGraph A).
Proof.
  intros u v w H.
  destruct u as [|[|[|u]]]; simpl in H;
    repeat (destruct H as [H|H]; [inversion H; subst; clear H|]);
    try contradiction; simpl; split; auto; lia.
Qed.

Example sequential_on_path :
  let r := localMovingPhase (byWeight binary64) PrimFloat.zero
             (mkConfig false 5%Z ParallelizationType.None)
             (pathGraph binary64) inOrder in
  fst r = [2; 0]
  /\ result (snd r) = [1; 1; 1; 3]
  /\ clusterCut (snd r) = [0; 0; 0; 0]%float
  /\ clusterVolume (snd r) = [0; 4; 0; 0]%float
  /\ totalVolume (snd r) = 4%float.
Proof. vm_compute. repeat split; reflexivity. Qed.

Example synchronous_on_path :
  let r := localMovingPhase (byWeight binary64) PrimFloat.zero
             (mkConfig false 2%Z ParallelizationType.Synchronous)
             (pathGraph binary64) inOrder in
  fst r = [3; 3]
  /\ result (snd r) = [0; 1; 0; 3]
  /\ clusterVolume (snd r) = [2; 2; 0; 0]%float.
Proof. vm_compute. repeat split; reflexivity. Qed.

(** The lock-based strategy is not a function of the visiting order: the
    two environments agree on it and lead to different partitions. *)
Example relaxmap_depends_on_staleness :
  result (snd (localMovingPhase (byWeight binary64) PrimFloat.zero
                 (mkConfig false 1%Z ParallelizationType.RelaxMap)
                 (pathGraph binary64) inOrder))
  <> result (snd (localMovingPhase (byWeight binary64) PrimFloat.zero
                    (mkConfig false 1%Z ParallelizationType.RelaxMap)
                    (pathGraph binary64) lagging)).
Proof. vm_compute. discriminate. Qed.

Example hierarchical_on_path :
  run (byWeight binary64) PrimFloat.zero sameGraph compose
      (mkConfig true 5%Z ParallelizationType.None) (pathGraph binary64)
      (fun _ => inOrder)
  = [1; 1; 1; 3].
Proof. vm_compute. reflexivity. Qed.

(** The move of the counterexample to the volume balance is the one the
    engine decides on for node 2 of [decimalPath]. *)
Example engine_decides_joinNeighbour :
  option_map (moveOf decimalPath 2)
    (decide (byWeight binary64) PrimFloat.zero decimalPath
            (initialize decimalPath) 2)
  = Some joinNeighbour.
Proof. vm_compute. reflexivity. Qed.

(** One sequential pass over [decimalPath] in the order 0, 1, 2 moves
    every node; afterwards cluster 1 has no member and a volume that is
    not zero. *)
Example sequential_pass_on_decimalPath :
  let r := localMovingPhase (byWeight binary64) PrimFloat.zero
             (mkConfig false 1%Z ParallelizationType.None) decimalPath
             (fun _ => mkPassSchedule [0; 1; 2] []) in
  result (snd r) = [1; 2; 2]
  /\ PrimFloat.eqb (nth 1 (clusterVolume (snd r)) PrimFloat.zero) PrimFloat.zero
     = false.
Proof. vm_compute. split; reflexivity. Qed.

(** The move lists of the counterexample to order independence are the
    ones a stale-synchronous evaluation of the leaves of [star] yields. *)
Example engine_decides_leafLists :
  snd (fst (evaluateAll (byWeight binary64) PrimFloat.zero star [0; 1; 2] 0 []
              (initialize star)))
  = List.concat leafLists.
Proof. vm_compute. reflexivity. Qed.

Lemma isolated_node_stays_alone_witness :
  subsetOf (result (snd (localMovingPhase (byWeight binary64) PrimFloat.zero
                           (mkConfig false 5%Z ParallelizationType.RelaxMap)
                           (pathGraph binary64) lagging))) 3 = 3.
Proof.
  apply (isolated_node_stays_alone binary64 (byWeight binary64) PrimFloat.zero
           (mkConfig false 5%Z ParallelizationType.RelaxMap)
           (pathGraph binary64) lagging 3 0).
  - exact (pathGraph_wellFormed binary64).
  - simpl. lia.
  - reflexivity.
  - reflexivity.
Defined.

(** ** More on [idiv_ceil] and [chunk_bounds]                          *)

Open Scope Z_scope.

Lemma idiv_ceil_fits (bits : Z) (a b : Z) :
  is_count bits a -> 1 <= b -> a + b - 1 < modulus bits ->
  idiv_ceil bits a b = (a + b - 1) / b.
Proof.
  intros [Ha _] Hb H. apply idiv_ceil_exact. lia.
Qed.

Lemma ceiling_least (a b k : Z) :
  1 <= b -> a <= k * b -> (a + b - 1) / b <= k.
Proof.
  intros Hb H. apply Z.lt_succ_r. apply Z.div_lt_upper_bound; lia.
Qed.

Lemma ceiling_nonneg (a b : Z) : 0 <= a -> 1 <= b -> 0 <= (a + b - 1) / b.
Proof. intros Ha Hb. apply Z.div_pos; lia. Qed.

(** X1: without wrap-around, [idiv_ceil a b] is the ceiling of [a / b]:
    the least [k] with [a <= k * b]. *)
Theorem idiv_ceil_is_ceiling (bits : Z) (a b : count) :
  is_count bits a -> is_count bits b -> 1 <= b ->
  a + b - 1 < modulus bits ->
  a <= idiv_ceil bits a b * b
  /\ forall k, a <= k * b -> idiv_ceil bits a b <= k.
Proof.
  intros Ha Hb Hb1 Hfit.
  rewrite (idiv_ceil_fits bits a b Ha Hb1 Hfit). split.
  - apply ceil_mul_ge; [exact Hb1 | apply Ha].
  - intros k Hk. apply ceiling_least; assumption.
Qed.

Lemma idiv_ceil_is_ceiling_witness :
  10 <= idiv_ceil 64 10 3 * 3 /\ forall k, 10 <= k * 3 -> idiv_ceil 64 10 3 <= k.
Proof.
  apply (idiv_ceil_is_ceiling 64 10 3); unfold is_count, modulus; cbn; lia.
Defined.

(** X2: when [a + b - 1] does not fit a [count], [idiv_ceil a b] is too
    small: that many chunks of [b] positions do not reach [a]. *)
Theorem idiv_ceil_wrap_undercounts (bits : Z) (a b : count) :
  0 <= bits -> is_count bits a -> is_count bits b -> 1 <= b ->
  modulus bits <= a + b - 1 ->
  0 <= idiv_ceil bits a b /\ idiv_ceil bits a b * b < a.
Proof.
  intros Hbits [Ha0 Ha] [_ Hb] Hb1 Hwrap.
  rewrite (idiv_ceil_wrapped bits Hbits a b) by lia.
  pose proof (Z.mul_div_le (a + b - 1 - modulus bits) b).
  split; [apply Z.div_pos; lia | nia].
Qed.

Lemma idiv_ceil_wrap_undercounts_witness :
  0 <= idiv_ceil 8 250 10 /\ idiv_ceil 8 250 10 * 10 < 250.
Proof.
  apply (idiv_ceil_wrap_undercounts 8 250 10); unfold is_count, modulus; cbn; lia.
Defined.

(** X3: without wrap-around the number of chunks lies between [0] and the
    number of positions, and it is [0] exactly for the empty range. *)
Theorem idiv_ceil_bounds (bits : Z) (a b : count) :
  is_count bits a -> is_count bits b -> 1 <= b ->
  a + b - 1 < modulus bits ->
  0 <= idiv_ceil bits a b <= a
  /\ (idiv_ceil bits a b = 0 <-> a = 0).
Proof.
  intros Ha Hb Hb1 Hfit.
  rewrite (idiv_ceil_fits bits a b Ha Hb1 Hfit).
  destruct Ha as [Ha0 Ha].
  pose proof (ceiling_nonneg a b Ha0 Hb1) as Hk0.
  pose proof (ceil_mul_ge a b Hb1 Ha0) as Hge.
  assert (Hle : (a + b - 1) / b <= a) by (apply ceiling_least; [exact Hb1 | nia]).
  split; [lia|]. split.
  - intros Hz. rewrite Hz in Hge. lia.
  - intros ->. apply Z.div_small. lia.
Qed.

Lemma idiv_ceil_bounds_witness :
  0 <= idiv_ceil 64 0 7 <= 0 /\ (idiv_ceil 64 0 7 = 0 <-> 0 = 0).
Proof.
  apply (idiv_ceil_bounds 64 0 7); unfold is_count, modulus; cbn; lia.
Defined.

(** X4: without wrap-around, more positions never need fewer chunks and a
    larger chunk size never needs more. *)
Theorem idiv_ceil_monotone (bits : Z) (a a' b b' : count) :
  is_count bits a -> is_count bits a' -> 1 <= b -> b <= b' ->
  a <= a' -> a' + b' - 1 < modulus bits ->
  idiv_ceil bits a b <= idiv_ceil bits a' b
  /\ idiv_ceil bits a' b' <= idiv_ceil bits a' b.
Proof.
  intros Ha Ha' Hb Hbb Haa Hfit.
  rewrite (idiv_ceil_fits bits a b Ha Hb) by lia.
  rewrite (idiv_ceil_fits bits a' b Ha' Hb) by lia.
  rewrite (idiv_ceil_fits bits a' b' Ha') by lia.
  destruct Ha as [Ha0 _], Ha' as [Ha0' _].
  split.
  - apply Z.div_le_mono; lia.
  - apply ceiling_least; [lia|].
    pose proof (ceil_mul_ge a' b Hb Ha0').
    pose proof (ceiling_nonneg a' b Ha0' Hb). nia.
Qed.

Lemma idiv_ceil_monotone_witness :
  idiv_ceil 64 10 3 <= idiv_ceil 64 11 3
  /\ idiv_ceil 64 11 4 <= idiv_ceil 64 11 3.
Proof.
  apply (idiv_ceil_monotone 64 10 11 3 4); unfold is_count, modulus; cbn; lia.
Defined.

(** X5: whatever its arguments, wrapped or not, a chunk holds positions
    of [[0, n)] only. *)
Theorem chunk_within_range (bits : Z) (i n chunk_size x : Z) :
  0 <= bits -> in_chunk bits i n chunk_size x -> 0 <= x < n.
Proof.
  intros Hbits [Hlo Hhi]. unfold chunk_bounds in *. simpl in *.
  pose proof (modulus_pos bits Hbits) as Hm.
  pose proof (Z.mod_pos_bound (i * chunk_size) (modulus bits) Hm) as Hw.
  unfold wrap in Hlo. lia.
Qed.

Lemma chunk_within_range_witness : 0 <= 5 < 7.
Proof.
  apply (chunk_within_range 8 65 7 4 5); [lia|].
  unfold in_chunk. cbn. lia.
Defined.

Lemma chunk_bounds_fits (bits : Z) (i n b : Z) :
  is_count bits n -> 1 <= b -> n + b - 1 < modulus bits ->
  0 <= i < idiv_ceil bits n b ->
  chunk_bounds bits i n b = (i * b, Z.min n ((i + 1) * b)).
Proof.
  intros Hn Hb Hfit Hi.
  rewrite (idiv_ceil_fits bits n b Hn Hb Hfit) in Hi.
  destruct Hn as [Hn0 _].
  pose proof (ceil_mul_le n b Hb Hn0).
  apply chunk_bounds_exact; try lia. nia.
Qed.

(** X6: without wrap-around no chunk is empty and none is longer than the
    chunk size; every chunk but the last has exactly [b] positions, and
    the last one has what is left. *)
Theorem chunk_lengths_bounded (bits : Z) (i n b : count) :
  is_count bits n -> is_count bits b -> 1 <= b ->
  n + b - 1 < modulus bits ->
  0 <= i < idiv_ceil bits n b ->
  1 <= chunk_length bits i n b <= b
  /\ (i + 1 < idiv_ceil bits n b -> chunk_length bits i n b = b)
  /\ (i + 1 = idiv_ceil bits n b -> chunk_length bits i n b = n - i * b).
Proof.
  intros Hn Hbc Hb Hfit Hi. unfold chunk_length.
  rewrite (chunk_bounds_fits bits i n b Hn Hb Hfit Hi). simpl.
  rewrite (idiv_ceil_fits bits n b Hn Hb Hfit) in *.
  destruct Hn as [Hn0 _].
  pose proof (ceil_mul_le n b Hb Hn0) as Hle.
  pose proof (ceil_mul_ge n b Hb Hn0) as Hge.
  split; [|split].
  - nia.
  - intros Hnext. nia.
  - intros Hlast. rewrite <- Hlast in Hge. lia.
Qed.

Lemma chunk_lengths_bounded_witness :
  1 <= chunk_length 64 3 10 3 <= 3
  /\ (3 + 1 < idiv_ceil 64 10 3 -> chunk_length 64 3 10 3 = 3)
  /\ (3 + 1 = idiv_ceil 64 10 3 -> chunk_length 64 3 10 3 = 10 - 3 * 3).
Proof.
  apply (chunk_lengths_bounded 64 3 10 3); unfold is_count, modulus; cbn; lia.
Defined.

Lemma Zsum_chunk_prefix (bits : Z) (n b : Z) :
  is_count bits n -> 1 <= b -> n + b - 1 < modulus bits ->
  forall m : nat,
    Z.of_nat m <= idiv_ceil bits n b ->
    Zsum (map (fun i => chunk_length bits (Z.of_nat i) n b) (seq 0 m))
    = Z.min n (Z.of_nat m * b).
Proof.
  intros Hn Hb Hfit. induction m as [|m IH]; intros Hm.
  - simpl. destruct Hn. lia.
  - assert (Happ : forall l x, Zsum (l ++ [x]) = Zsum l + x).
    { induction l as [|y l IHl]; intros x; simpl; [lia | rewrite IHl; lia]. }
    rewrite seq_S, map_app. cbn [map Nat.add].
    rewrite Happ, IH by lia.
    unfold chunk_length.
    rewrite (chunk_bounds_fits bits (Z.of_nat m) n b Hn Hb Hfit) by lia.
    cbn [fst snd].
    rewrite (idiv_ceil_fits bits n b Hn Hb Hfit) in Hm.
    destruct Hn as [Hn0 _].
    pose proof (ceil_mul_le n b Hb Hn0) as Hle.
    rewrite Nat2Z.inj_succ in *. unfold Z.succ in *.
    assert (Z.of_nat m * b <= n) by nia.
    lia.
Qed.

(** X7: without wrap-around the lengths of the chunks add up to the
    number of positions. *)
Theorem chunk_lengths_sum (bits : Z) (n b : count) :
  is_count bits n -> is_count bits b -> 1 <= b ->
  n + b - 1 < modulus bits ->
  Zsum (chunk_lengths bits n b) = n.
Proof.
  intros Hn Hbc Hb Hfit. unfold chunk_lengths.
  assert (Hk0 : 0 <= idiv_ceil bits n b).
  { rewrite (idiv_ceil_fits bits n b Hn Hb Hfit).
    apply ceiling_nonneg; [apply Hn | exact Hb]. }
  rewrite (Zsum_chunk_prefix bits n b Hn Hb Hfit) by lia.
  rewrite Z2Nat.id by exact Hk0.
  rewrite (idiv_ceil_fits bits n b Hn Hb Hfit).
  pose proof (ceil_mul_ge n b Hb (proj1 Hn)). lia.
Qed.

Lemma chunk_lengths_sum_witness : Zsum (chunk_lengths 64 10 3) = 10.
Proof.
  apply (chunk_lengths_sum 64 10 3); unfold is_count, modulus; cbn; lia.
Defined.

(** X8: without wrap-around, position [x] of the range is handled by
    chunk number [x / b] and by no other. *)
Theorem chunk_of_position (bits : Z) (i n b x : count) :
  is_count bits n -> is_count bits b -> 1 <= b ->
  n + b - 1 < modulus bits ->
  0 <= x < n -> 0 <= i < idiv_ceil bits n b ->
  (in_chunk bits i n b x <-> i = x / b).
Proof.
  intros Hn Hbc Hb Hfit Hx Hi. unfold in_chunk.
  rewrite (chunk_bounds_fits bits i n b Hn Hb Hfit Hi). simpl.
  pose proof (Z.mul_div_le x b).
  pose proof (Z.mod_pos_bound x b). pose proof (Z.div_mod x b).
  split.
  - intros [Hlo Hhi]. nia.
  - intros ->. nia.
Qed.

Lemma chunk_of_position_witness : in_chunk 64 2 10 3 7 <-> 2 = 7 / 3.
Proof.
  apply (chunk_of_position 64 2 10 3 7); unfold is_count, modulus; cbn; lia.
Defined.

(** X9: a chunk size that is at least the number of positions gives one
    chunk, the whole range. *)
Theorem single_chunk (bits : Z) (n b : count) :
  is_count bits n -> is_count bits b -> 1 <= n <= b ->
  n + b - 1 < modulus bits ->
  idiv_ceil bits n b = 1 /\ chunk_bounds bits 0 n b = (0, n).
Proof.
  intros Hn Hbc Hnb Hfit.
  assert (Hb : 1 <= b) by lia.
  assert (Hk : idiv_ceil bits n b = 1).
  { rewrite (idiv_ceil_fits bits n b Hn Hb Hfit).
    replace (n + b - 1) with ((n - 1) + 1 * b) by ring.
    rewrite Z.div_add by lia. rewrite Z.div_small by lia. reflexivity. }
  split; [exact Hk|].
  rewrite (chunk_bounds_fits bits 0 n b Hn Hb Hfit) by lia.
  f_equal. lia.
Qed.

Lemma single_chunk_witness :
  idiv_ceil 64 5 100 = 1 /\ chunk_bounds 64 0 5 100 = (0, 5).
Proof.
  apply (single_chunk 64 5 100); unfold is_count, modulus; cbn; lia.
Defined.

(** X10: a chunk number past the last one gives an interval without
    positions: its upper bound is [n] and its lower bound is not below
    [n]; the lower bound is not clamped. *)
Theorem chunk_past_the_end (bits : Z) (i n b : count) :
  is_count bits n -> is_count bits b -> 1 <= b ->
  n + b - 1 < modulus bits ->
  idiv_ceil bits n b <= i -> (i + 1) * b < modulus bits ->
  chunk_bounds bits i n b = (i * b, n)
  /\ n <= i * b
  /\ forall x, ~ in_chunk bits i n b x.
Proof.
  intros Hn Hbc Hb Hfit Hi Hfit'.
  rewrite (idiv_ceil_fits bits n b Hn Hb Hfit) in Hi.
  pose proof (ceil_mul_ge n b Hb (proj1 Hn)) as Hge.
  pose proof (ceiling_nonneg n b (proj1 Hn) Hb) as Hk0.
  assert (Hlow : n <= i * b) by nia.
  assert (Hcb : chunk_bounds bits i n b = (i * b, n)).
  { rewrite chunk_bounds_exact by lia. f_equal. lia. }
  split; [exact Hcb | split; [exact Hlow |]].
  intros x [Hlo Hhi]. rewrite Hcb in Hlo, Hhi. simpl in *. lia.
Qed.

Lemma chunk_past_the_end_witness :
  chunk_bounds 64 5 10 3 = (15, 10) /\ 10 <= 5 * 3
  /\ forall x, ~ in_chunk 64 5 10 3 x.
Proof.
  apply (chunk_past_the_end 64 5 10 3); unfold is_count, modulus; cbn; lia.
Defined.

(** ** More on construction                                            *)

Open Scope nat_scope.

(** X11: the conversion matches names exactly: a parallelization type is
    returned for its own name and for no other string. *)
Theorem convert_returns_iff (s : String.string) :
  (convert_string_to_parallelization_type s = Returned ParallelizationType.None
   <-> s = "none"%string)
  /\ (convert_string_to_parallelization_type s = Returned ParallelizationType.RelaxMap
      <-> s = "relaxmap"%string)
  /\ (convert_string_to_parallelization_type s
      = Returned ParallelizationType.Synchronous
      <-> s = "synchronous"%string).
Proof.
  unfold convert_string_to_parallelization_type.
  destruct (String.eqb_spec s "none") as [->|Hn].
  { repeat split; intros H; try reflexivity; discriminate. }
  destruct (String.eqb_spec s "relaxmap") as [->|Hr].
  { repeat split; intros H; try reflexivity; discriminate. }
  destruct (String.eqb_spec s "synchronous") as [->|Hs].
  { repeat split; intros H; try reflexivity; discriminate. }
  repeat split; intros H; try discriminate; contradiction.
Qed.


